(** * umm_poison.c: the poison (guard byte) layer of umm_malloc

    A shallow embedding of [src/umm_poison.c] and the properties of its
    poisoning scheme.

    The C code works on a flat byte memory through raw pointers, and the
    embedding keeps that view:

    - an address is an integer, [NULL] is 0, and pointer arithmetic is
      integer arithmetic (it does not wrap);
    - the memory holds one byte at every address, so a read outside any
      object, which C leaves undefined, reads what the memory holds there;
    - integers wider than a byte are stored little-endian;
    - [size_t] arithmetic wraps modulo [2 ^ SIZE_T_BITS];
    - the heap is the array of blocks at the global pointer [umm_heap];
      the allocator that manages it ([umm_init], [umm_malloc],
      [umm_realloc], [umm_free]) is not part of the file and is a
      parameter;
    - every [DBGLOG_ERROR] call is appended to a log with its format
      string and arguments, and so is the assertion
      [APP_ERROR_CHECK_BOOL(false)], whose handler belongs to the
      application framework; the statements after the assertion are
      modelled as they are written, which is what runs when the handler
      returns: where a handler stops the program, the run ends at the
      assertion event;
    - the [while] loop of [umm_poison_check] runs on fuel. *)

From Stdlib Require Import ZArith String List Bool Lia.
From Stdlib Require Import Strings.Byte.
Import ListNotations.

Local Open Scope Z_scope.

(* ------------------------------------------------------------------ *)
(** ** Build-time configuration *)

(** The macros and types that [umm_poison.c] takes from the allocator's
    headers.  They are not part of the file, so they are parameters of the
    whole development. *)
Class Config : Type := {
  (** width of [size_t], in bits *)
  SIZE_T_BITS : Z;
  (** [UMM_POISON_SIZE_BEFORE] *)
  UMM_POISON_SIZE_BEFORE : Z;
  (** [UMM_POISON_SIZE_AFTER] *)
  UMM_POISON_SIZE_AFTER : Z;
  (** [sizeof(UMM_POISONED_BLOCK_LEN_TYPE)] *)
  LEN_TYPE_SIZE : Z;
  (** whether [UMM_POISONED_BLOCK_LEN_TYPE] is a signed integer type *)
  LEN_TYPE_SIGNED : bool;
  (** [sizeof(umm_block)] *)
  UMM_BLOCK_SIZE : Z;
  (** [offsetof(umm_block, body)] *)
  UMM_BODY_OFFSET : Z
}.

(** Sanity of a configuration: guard sizes are not negative, the length
    record has at least one byte and is no wider than [size_t], the poison
    overhead is representable as a [size_t], and a block starts with its
    16-bit link field followed by the body. *)
Definition config_ok `{Config} : bool :=
  (0 <=? UMM_POISON_SIZE_BEFORE) && (0 <=? UMM_POISON_SIZE_AFTER) &&
  (0 <? LEN_TYPE_SIZE) && (8 * LEN_TYPE_SIZE <=? SIZE_T_BITS) &&
  (UMM_POISON_SIZE_BEFORE + LEN_TYPE_SIZE + UMM_POISON_SIZE_AFTER <? 2 ^ SIZE_T_BITS) &&
  (2 <=? UMM_BODY_OFFSET) && (UMM_BODY_OFFSET <=? UMM_BLOCK_SIZE).

(** Modelled from the spec: the link field of a block packs the index of the
    next block with one reserved bit, the high bit, that marks the block
    free; index values are masked to exclude it.  The indices in the code
    are [unsigned short int]. *)
Definition UMM_FREELIST_MASK : Z := 0x8000.
Definition UMM_BLOCKNO_MASK : Z := 0x7FFF.

Definition POISON_BYTE : byte := xa5.

Definition NULL : Z := 0.

(* ------------------------------------------------------------------ *)
(** ** Bytes, memory and the log *)

Definition byte_to_Z (b : byte) : Z := Z.of_N (Byte.to_N b).

Definition byte_of_Z (z : Z) : byte :=
  match Byte.of_N (Z.to_N (z mod 256)) with
  | Some b => b
  | None => x00
  end.

(** Flat memory: one byte at every address. *)
Definition memory : Type := Z -> byte.

(** [memset(ptr, c, n)] *)
Definition memset (m : memory) (ptr : Z) (c : byte) (n : Z) : memory :=
  fun a => if (ptr <=? a) && (a <? ptr + n) then c else m a.

(** A single byte store at [ptr]. *)
Definition store_byte (m : memory) (ptr : Z) (c : byte) : memory :=
  fun a => if a =? ptr then c else m a.

(** Little-endian load of an [n]-byte unsigned integer. *)
Fixpoint load_le (m : memory) (ptr : Z) (n : nat) : Z :=
  match n with
  | O => 0
  | S n' => byte_to_Z (m ptr) + 256 * load_le m (ptr + 1) n'
  end.

(** Little-endian store of the low [n] bytes of [v]. *)
Definition store_le (m : memory) (ptr : Z) (n : Z) (v : Z) : memory :=
  fun a =>
    if (ptr <=? a) && (a <? ptr + n)
    then byte_of_Z (Z.shiftr v (8 * (a - ptr)))
    else m a.

(** Reading of a two's complement integer of [bits] bits. *)
Definition to_signed (bits : Z) (v : Z) : Z :=
  if v <? 2 ^ (bits - 1) then v else v - 2 ^ bits.

(** The arguments of a [printf]-style call. *)
Inductive arg : Type :=
| AStr (s : string)
| ANum (z : Z).

(** What the code emits: [DBGLOG_ERROR(fmt, args...)] calls and the fatal
    assertion [APP_ERROR_CHECK_BOOL(false)] of the application framework. *)
Inductive event : Type :=
| DbgLogError (fmt : string) (args : list arg)
| AppErrorCheckFailed.

(** Program state: the memory, the global [umm_heap] pointer and the log
    of emitted events, oldest first. *)
Record state : Type := mkState {
  mem : memory;
  umm_heap : Z;
  log : list event
}.

Definition emit (st : state) (evs : list event) : state :=
  mkState (mem st) (umm_heap st) (log st ++ evs).

Definition set_mem (st : state) (m : memory) : state :=
  mkState m (umm_heap st) (log st).

(** The underlying allocator, consumed through its four entry points.  A
    pointer is an address, [NULL] is [0]. *)
Class Allocator : Type := {
  umm_init : state -> state;
  umm_malloc : state -> Z -> Z * state;
  umm_realloc : state -> Z -> Z -> Z * state;
  umm_free : state -> Z -> state
}.

(* ------------------------------------------------------------------ *)
(** ** The code of umm_poison.c *)

Section Poison.

Context `{cfg : Config}.

(** [size_t] arithmetic wraps. *)
Definition wrap_size (z : Z) : Z := z mod 2 ^ SIZE_T_BITS.

Definition SIZE_MAX : Z := 2 ^ SIZE_T_BITS - 1.

(** Width and value range of [UMM_POISONED_BLOCK_LEN_TYPE]. *)
Definition LEN_BITS : Z := 8 * LEN_TYPE_SIZE.

(** The conversion [(UMM_POISONED_BLOCK_LEN_TYPE)v] as the value read back. *)
Definition len_cast (v : Z) : Z :=
  let u := v mod 2 ^ LEN_BITS in
  if LEN_TYPE_SIGNED then to_signed LEN_BITS u else u.

Definition LEN_MAX : Z :=
  if LEN_TYPE_SIGNED then 2 ^ (LEN_BITS - 1) - 1 else 2 ^ LEN_BITS - 1.

(** Reading the length record at [pc], as a [UMM_POISONED_BLOCK_LEN_TYPE]. *)
Definition load_len (m : memory) (pc : Z) : Z :=
  let u := load_le m pc (Z.to_nat LEN_TYPE_SIZE) in
  if LEN_TYPE_SIGNED then to_signed LEN_BITS u else u.

(** Writing [v], converted to [UMM_POISONED_BLOCK_LEN_TYPE], at [ptr]. *)
Definition store_len (m : memory) (ptr : Z) (v : Z) : memory :=
  store_le m ptr LEN_TYPE_SIZE v.

(** [&UMM_BLOCK(b)], the address of [umm_heap[b]]. *)
Definition UMM_BLOCK (st : state) (b : Z) : Z :=
  umm_heap st + b * UMM_BLOCK_SIZE.

(** [pblock->header.used.next].  The declaration of [umm_block] is not in
    the file: the link field is taken to be its first member, an
    [unsigned short int] of two bytes. *)
Definition header_next (m : memory) (pblock : Z) : Z := load_le m pblock 2.

(** [UMM_NBLOCK(b)] *)
Definition UMM_NBLOCK (st : state) (b : Z) : Z :=
  header_next (mem st) (UMM_BLOCK st b).

(** [poison_size] *)
Definition poison_size (s : Z) : Z :=
  if s =? 0 then 0
  else wrap_size (UMM_POISON_SIZE_BEFORE + LEN_TYPE_SIZE + UMM_POISON_SIZE_AFTER).

(** [dump_mem]: one [DBGLOG_ERROR] per byte. *)
Fixpoint dump_mem (m : memory) (ptr : Z) (len : nat) : list event :=
  match len with
  | O => []
  | S len' =>
      DbgLogError " 0x%.2x" [ANum (byte_to_Z (m ptr))] :: dump_mem m (ptr + 1) len'
  end.

(** [put_poison] *)
Definition put_poison (m : memory) (ptr : Z) (poison_size : Z) : memory :=
  memset m ptr POISON_BYTE poison_size.

(** The [for] loop of [check_poison]: [n] bytes are left to look at from
    index [i]; the result is the final value of [ok]. *)
Fixpoint check_poison_loop (m : memory) (ptr : Z) (i : Z) (n : nat) : Z :=
  match n with
  | O => 1
  | S n' =>
      if Byte.eqb (m (ptr + i)) POISON_BYTE
      then check_poison_loop m ptr (i + 1) n'
      else 0
  end.

(** [check_poison]: on a mismatch the message, the dump, the newline and
    the assertion, in this order; the result is [ok] either way. *)
Definition check_poison (st : state) (ptr : Z) (poison_size : Z) (where_ : string)
  : Z * state :=
  let ok := check_poison_loop (mem st) ptr 0 (Z.to_nat poison_size) in
  if ok =? 0 then
    (ok, emit st
           (DbgLogError "No poison %s block at: 0x%lx, actual data:"
                        [AStr where_; ANum ptr]
            :: dump_mem (mem st) ptr (Z.to_nat poison_size)
            ++ [DbgLogError "\n" []; AppErrorCheckFailed]))
  else (ok, st).

(** [check_poison_block] *)
Definition check_poison_block (st : state) (pblock : Z) : Z * state :=
  if negb (Z.land (header_next (mem st) pblock) UMM_FREELIST_MASK =? 0) then
    (1, emit st [DbgLogError "check_poison_block is called for free block 0x%lx\n"
                             [ANum pblock]])
  else
    let pc := pblock + UMM_BODY_OFFSET in
    let pc_cur := pc + LEN_TYPE_SIZE in
    let '(r, st1) := check_poison st pc_cur UMM_POISON_SIZE_BEFORE "before" in
    if r =? 0 then (0, st1)
    else
      let pc_cur := pc + load_len (mem st1) pc - UMM_POISON_SIZE_AFTER in
      let '(r, st2) := check_poison st1 pc_cur UMM_POISON_SIZE_AFTER "after" in
      if r =? 0 then (0, st2) else (1, st2).

(** [get_poisoned] *)
Definition get_poisoned (st : state) (ptr : Z) (size_w_poison : Z) : Z * state :=
  if negb (size_w_poison =? 0) && negb (ptr =? NULL) then
    let m1 := put_poison (mem st) (ptr + LEN_TYPE_SIZE) UMM_POISON_SIZE_BEFORE in
    let m2 := put_poison m1 (ptr + size_w_poison - UMM_POISON_SIZE_AFTER)
                         UMM_POISON_SIZE_AFTER in
    let m3 := store_len m2 ptr size_w_poison in
    (ptr + LEN_TYPE_SIZE + UMM_POISON_SIZE_BEFORE, set_mem st m3)
  else (ptr, st).

(** [get_unpoisoned].  The block index is an [unsigned short int]; the
    pointer difference is divided as a [size_t]. *)
Definition get_unpoisoned (st : state) (ptr : Z) : Z * state :=
  if negb (ptr =? NULL) then
    let ptr := ptr - (LEN_TYPE_SIZE + UMM_POISON_SIZE_BEFORE) in
    let c := (wrap_size (ptr - umm_heap st) / UMM_BLOCK_SIZE) mod 2 ^ 16 in
    let '(_, st1) := check_poison_block st (UMM_BLOCK st c) in
    (ptr, st1)
  else (ptr, st).

Context `{alloc : Allocator}.

(** [umm_poison_malloc] *)
Definition umm_poison_malloc (st : state) (size : Z) : Z * state :=
  let size := wrap_size (size + poison_size size) in
  let '(ret, st1) := umm_malloc st size in
  get_poisoned st1 ret size.

(** [umm_poison_calloc] *)
Definition umm_poison_calloc (st : state) (num item_size : Z) : Z * state :=
  let size := wrap_size (item_size * num) in
  let size := wrap_size (size + poison_size size) in
  let '(ret, st1) := umm_malloc st size in
  let st2 := if negb (NULL =? ret)
             then set_mem st1 (memset (mem st1) ret x00 size)
             else st1 in
  get_poisoned st2 ret size.

(** [umm_poison_realloc] *)
Definition umm_poison_realloc (st : state) (ptr : Z) (size : Z) : Z * state :=
  let '(ptr, st1) := get_unpoisoned st ptr in
  let size := wrap_size (size + poison_size size) in
  let '(ret, st2) := umm_realloc st1 ptr size in
  get_poisoned st2 ret size.

(** [umm_poison_free] *)
Definition umm_poison_free (st : state) (ptr : Z) : state :=
  let '(ptr, st1) := get_unpoisoned st ptr in
  umm_free st1 ptr.

(** The [while] loop of [umm_poison_check].  The chain of a damaged heap
    can be cyclic, so the loop runs on fuel: [None] means the fuel ran out
    before the loop ended. *)
Fixpoint umm_poison_check_loop (fuel : nat) (st : state) (ok : Z) (cur : Z)
  : option (Z * state) :=
  match fuel with
  | O => None
  | S fuel' =>
      if Z.land (UMM_NBLOCK st cur) UMM_BLOCKNO_MASK =? 0 then Some (ok, st)
      else
        let next := Z.land (UMM_NBLOCK st cur) UMM_BLOCKNO_MASK in
        if Z.land (UMM_NBLOCK st cur) UMM_FREELIST_MASK =? 0 then
          let '(ok, st1) := check_poison_block st (UMM_BLOCK st cur) in
          if ok =? 0 then Some (ok, st1)
          else umm_poison_check_loop fuel' st1 ok
                 (Z.land (UMM_NBLOCK st1 cur) UMM_BLOCKNO_MASK)
        else umm_poison_check_loop fuel' st ok next
  end.

(** [umm_poison_check] *)
Definition umm_poison_check (fuel : nat) (st : state) : option (Z * state) :=
  let st0 := if umm_heap st =? NULL then umm_init st else st in
  let cur := Z.land (UMM_NBLOCK st0 0) UMM_BLOCKNO_MASK in
  umm_poison_check_loop fuel st0 1 cur.

End Poison.

(* ------------------------------------------------------------------ *)
(** ** The shape of the heap *)

Section HeapShape.

Context `{cfg : Config}.

(** Address of block [b] of the heap at [h]. *)
Definition block_at (h b : Z) : Z := h + b * UMM_BLOCK_SIZE.

(** The next-index of block [b], the free bit masked out. *)
Definition next_index (m : memory) (h b : Z) : Z :=
  Z.land (header_next m (block_at h b)) UMM_BLOCKNO_MASK.

(** The free bit of block [b]. *)
Definition is_free (m : memory) (h b : Z) : bool :=
  negb (Z.land (header_next m (block_at h b)) UMM_FREELIST_MASK =? 0).

(** [chainb m h cur l]: following the links from [cur], the blocks visited
    before the one whose next-index is zero are exactly [l], and every link
    points forward, as the links of the allocator do (its chain is in
    address order). *)
Fixpoint chainb (m : memory) (h cur : Z) (l : list Z) : bool :=
  match l with
  | [] => next_index m h cur =? 0
  | b :: l' =>
      (b =? cur) && negb (next_index m h cur =? 0) &&
      (cur <? next_index m h cur) && chainb m h (next_index m h cur) l'
  end.

(** Start of the guard region before the payload of the block at [pblock]. *)
Definition before_guard (pblock : Z) : Z :=
  pblock + UMM_BODY_OFFSET + LEN_TYPE_SIZE.

(** Start of the guard region after the payload, as the length record of
    the block locates it. *)
Definition after_guard (m : memory) (pblock : Z) : Z :=
  pblock + UMM_BODY_OFFSET + load_len m (pblock + UMM_BODY_OFFSET)
  - UMM_POISON_SIZE_AFTER.

(** The addresses of the machine are those from 0 up to
    [2 ^ SIZE_T_BITS]: [n] bytes at [a] lie in the address space.  The
    model computes addresses as integers; where an address falls outside
    this range the program has no such address. *)
Definition in_address_space (a n : Z) : bool :=
  (0 <=? a) && (a + n <=? 2 ^ SIZE_T_BITS).

(** The header, the length record and both guard regions of the block at
    [pblock], the guard after the payload as the length record locates it,
    lie in the address space. *)
Definition guards_addressable (m : memory) (pblock : Z) : bool :=
  in_address_space pblock 2 &&
  in_address_space (pblock + UMM_BODY_OFFSET) LEN_TYPE_SIZE &&
  in_address_space (before_guard pblock) UMM_POISON_SIZE_BEFORE &&
  in_address_space (after_guard m pblock) UMM_POISON_SIZE_AFTER.

(** The diagnostic of a poison violation, as [check_poison] emits it: the
    message with the side and the address of the guard region, the bytes
    found there, and the fatal assertion. *)
Definition violation_log (m : memory) (ptr n : Z) (where_ : string) : list event :=
  DbgLogError "No poison %s block at: 0x%lx, actual data:" [AStr where_; ANum ptr]
  :: dump_mem m ptr (Z.to_nat n) ++ [DbgLogError "\n" []; AppErrorCheckFailed].

(** Block [b] holds a live poisoned allocation: the length record covers
    the record itself, both guards and the payload, the allocation ends
    inside the block's span (which ends where the next block starts), and
    both guard regions hold the poison byte. *)
Definition poisoned_block (m : memory) (h b : Z) : bool :=
  let pc := block_at h b + UMM_BODY_OFFSET in
  let len := load_len m pc in
  (LEN_TYPE_SIZE + UMM_POISON_SIZE_BEFORE + UMM_POISON_SIZE_AFTER <=? len) &&
  (pc + len <=? block_at h (next_index m h b)) &&
  (check_poison_loop m (before_guard (block_at h b)) 0
     (Z.to_nat UMM_POISON_SIZE_BEFORE) =? 1) &&
  (check_poison_loop m (after_guard m (block_at h b)) 0
     (Z.to_nat UMM_POISON_SIZE_AFTER) =? 1).

(** A heap of live poisoned allocations: the chain from the head visits
    [l], and every used block of [l] holds a live poisoned allocation. *)
Definition live_heap (m : memory) (h : Z) (l : list Z) : bool :=
  chainb m h (next_index m h 0) l &&
  forallb (fun b => is_free m h b || poisoned_block m h b) l.

(** The heap as the allocator leaves it when it hands out block [b] for a
    request of [total] bytes: [b] is a used block of the chain whose span
    has room for [total] bytes of body, and every other used block holds a
    live poisoned allocation. *)
Definition fresh_block (m : memory) (h : Z) (l : list Z) (b total : Z) : bool :=
  chainb m h (next_index m h 0) l &&
  existsb (Z.eqb b) l &&
  negb (is_free m h b) &&
  (block_at h b + UMM_BODY_OFFSET + total <=? block_at h (next_index m h b)) &&
  forallb (fun b' => (b' =? b) || is_free m h b' || poisoned_block m h b') l.

End HeapShape.

(* ------------------------------------------------------------------ *)
(** ** The heap scan, as the specification words it *)

Section CheckAllSpec.

Context `{cfg : Config} `{alloc : Allocator}.

(** Lazy bootstrap: an uninitialised heap is initialised first. *)
Definition bootstrap (st : state) : state :=
  if umm_heap st =? NULL then umm_init st else st.

(** [scan st cur r]: the pass over the chain that stands at block [cur] in
    state [st] ends with result [r].  A zero next-index ends the pass with
    success; a block whose free bit is set is stepped over; a block whose
    free bit is unset is verified, a violation ends the pass with failure,
    and otherwise the pass goes on with the next block. *)
Inductive scan : state -> Z -> Z * state -> Prop :=
| scan_end st cur :
    next_index (mem st) (umm_heap st) cur = 0 ->
    scan st cur (1, st)
| scan_free st cur r :
    next_index (mem st) (umm_heap st) cur <> 0 ->
    is_free (mem st) (umm_heap st) cur = true ->
    scan st (next_index (mem st) (umm_heap st) cur) r ->
    scan st cur r
| scan_violation st cur st' :
    next_index (mem st) (umm_heap st) cur <> 0 ->
    is_free (mem st) (umm_heap st) cur = false ->
    check_poison_block st (block_at (umm_heap st) cur) = (0, st') ->
    scan st cur (0, st')
| scan_verified st cur ok st' r :
    next_index (mem st) (umm_heap st) cur <> 0 ->
    is_free (mem st) (umm_heap st) cur = false ->
    check_poison_block st (block_at (umm_heap st) cur) = (ok, st') ->
    ok <> 0 ->
    scan st' (next_index (mem st') (umm_heap st') cur) r ->
    scan st cur r.

(** [checkAll]: bootstrap, then one pass from the chain head. *)
Definition checkAll (st : state) (r : Z * state) : Prop :=
  scan (bootstrap st)
       (next_index (mem (bootstrap st)) (umm_heap (bootstrap st)) 0) r.

End CheckAllSpec.

(* ------------------------------------------------------------------ *)
(** ** A concrete configuration and concrete heaps *)

(** Guards of four bytes on each side, a length record of type [short], a
    32-bit [size_t] and blocks of eight bytes with a four-byte header. *)
Definition cfg442 : Config := {|
  SIZE_T_BITS := 32;
  UMM_POISON_SIZE_BEFORE := 4;
  UMM_POISON_SIZE_AFTER := 4;
  LEN_TYPE_SIZE := 2;
  LEN_TYPE_SIGNED := true;
  UMM_BLOCK_SIZE := 8;
  UMM_BODY_OFFSET := 4
|}.

Definition zero_mem : memory := fun _ => x00.

Definition ex_heap : Z := 0x1000.

(** The body of block 1 of the heap at [ex_heap]. *)
Definition ex_ptr : Z := 0x100C.

(** Link fields of a three-block chain: block 0 (the head) links to block
    1, block 1 is used and links to block [last], block [last] ends the
    chain. *)
Definition ex_links (m : memory) (last : Z) : memory :=
  store_le (store_le (store_le m ex_heap 2 1) (ex_heap + 8) 2 last)
           (ex_heap + 8 * last) 2 0.

(** An allocator that always hands out block 1, spanning up to block
    [last]; it never moves a block and frees nothing. *)
Definition ex_alloc (last : Z) : Allocator := {|
  umm_init st := mkState (ex_links (mem st) last) ex_heap (log st);
  umm_malloc st _ := (ex_ptr, mkState (ex_links (mem st) last) ex_heap (log st));
  umm_realloc st ptr _ := (ptr, st);
  umm_free st _ := st
|}.

(** An allocator that is out of memory. *)
Definition null_alloc : Allocator := {|
  umm_init st := st;
  umm_malloc st _ := (NULL, st);
  umm_realloc st _ _ := (NULL, st);
  umm_free st _ := st
|}.

Definition ex_st0 : state := mkState zero_mem NULL [].

(** The heap after [umm_poison_malloc(10)]: block 1 spans three blocks and
    holds an allocation of 20 bytes. *)
Definition ex_live : state :=
  snd (@umm_poison_malloc cfg442 (ex_alloc 4) ex_st0 10).

(** A heap whose block 1 is free. *)
Definition ex_free_st : state :=
  mkState (store_le (ex_links zero_mem 4) (ex_heap + 8) 2 0x8004) ex_heap [].

(* ------------------------------------------------------------------ *)
(** ** Bytes and little-endian integers *)

Lemma byte_to_Z_range (b : byte) : 0 <= byte_to_Z b < 256.
Proof.
  unfold byte_to_Z. pose proof (Byte.to_N_bounded b) as Hb. lia.
Qed.

Lemma byte_to_of_Z (z : Z) : byte_to_Z (byte_of_Z z) = z mod 256.
Proof.
  unfold byte_to_Z, byte_of_Z.
  assert (Hr : 0 <= z mod 256 < 256) by (apply Z.mod_pos_bound; lia).
  destruct (Byte.of_N (Z.to_N (z mod 256))) as [b|] eqn:E.
  - apply Byte.to_of_N in E. rewrite E. lia.
  - apply Byte.of_N_None_iff in E. lia.
Qed.

Lemma byte_eqb_eq (a b : byte) : Byte.eqb a b = true <-> a = b.
Proof.
  split; [apply Byte.byte_dec_bl | apply Byte.byte_dec_lb].
Qed.

Lemma byte_eqb_neq (a b : byte) : Byte.eqb a b = false <-> a <> b.
Proof.
  rewrite <- byte_eqb_eq. destruct (Byte.eqb a b); split; congruence.
Qed.

Lemma load_le_ext (m m' : memory) (n : nat) : forall ptr,
  (forall a, ptr <= a < ptr + Z.of_nat n -> m' a = m a) ->
  load_le m' ptr n = load_le m ptr n.
Proof.
  induction n as [|n IH]; intros ptr H; simpl; [reflexivity|].
  rewrite H by lia. rewrite IH; [reflexivity|].
  intros a Ha. apply H. lia.
Qed.

Lemma load_le_range (m : memory) (n : nat) : forall ptr,
  0 <= load_le m ptr n < 2 ^ (8 * Z.of_nat n).
Proof.
  induction n as [|n IH]; intros ptr.
  - simpl. lia.
  - cbn [load_le]. specialize (IH (ptr + 1)).
    pose proof (byte_to_Z_range (m ptr)) as Hb.
    replace (8 * Z.of_nat (S n)) with (8 + 8 * Z.of_nat n) by lia.
    rewrite Z.pow_add_r by lia. change (2 ^ 8) with 256. nia.
Qed.

Lemma load_store_le_aux (m : memory) (ptr n v : Z) (j : nat) : forall k,
  0 <= k -> k + Z.of_nat j <= n ->
  load_le (store_le m ptr n v) (ptr + k) j
  = Z.shiftr v (8 * k) mod 2 ^ (8 * Z.of_nat j).
Proof.
  induction j as [|j IH]; intros k Hk Hn.
  - simpl. rewrite Z.mod_1_r. reflexivity.
  - cbn [load_le].
    replace (ptr + k + 1) with (ptr + (k + 1)) by lia.
    rewrite IH by lia.
    unfold store_le at 1.
    replace ((ptr <=? ptr + k) && (ptr + k <? ptr + n)) with true
      by (symmetry; apply andb_true_intro; split; [apply Z.leb_le | apply Z.ltb_lt]; lia).
    rewrite byte_to_of_Z.
    replace (ptr + k - ptr) with k by lia.
    replace (8 * (k + 1)) with (8 * k + 8) by lia.
    rewrite <- Z.shiftr_shiftr by lia.
    set (x := Z.shiftr v (8 * k)).
    rewrite (Z.shiftr_div_pow2 x 8) by lia.
    replace (8 * Z.of_nat (S j)) with (8 + 8 * Z.of_nat j) by lia.
    rewrite Z.pow_add_r by lia. change (2 ^ 8) with 256.
    rewrite Z.rem_mul_r by lia. reflexivity.
Qed.

Lemma load_store_le (m : memory) (ptr n v : Z) :
  0 <= n ->
  load_le (store_le m ptr n v) ptr (Z.to_nat n) = v mod 2 ^ (8 * n).
Proof.
  intros Hn.
  pose proof (load_store_le_aux m ptr n v (Z.to_nat n) 0) as H.
  rewrite Z.add_0_r, Z.shiftr_0_r, Z2Nat.id in H by lia.
  apply H; lia.
Qed.

Lemma memset_in (m : memory) (ptr n a : Z) (c : byte) :
  ptr <= a < ptr + n -> memset m ptr c n a = c.
Proof.
  intros H. unfold memset.
  replace ((ptr <=? a) && (a <? ptr + n)) with true; [reflexivity|].
  symmetry. apply andb_true_intro. split; [apply Z.leb_le | apply Z.ltb_lt]; lia.
Qed.

Lemma memset_out (m : memory) (ptr n a : Z) (c : byte) :
  a < ptr \/ ptr + n <= a -> memset m ptr c n a = m a.
Proof.
  intros H. unfold memset.
  destruct (Z.leb_spec ptr a), (Z.ltb_spec a (ptr + n)); simpl; try reflexivity; lia.
Qed.

Lemma store_le_out (m : memory) (ptr n v a : Z) :
  a < ptr \/ ptr + n <= a -> store_le m ptr n v a = m a.
Proof.
  intros H. unfold store_le.
  destruct (Z.leb_spec ptr a), (Z.ltb_spec a (ptr + n)); simpl; try reflexivity; lia.
Qed.

Lemma store_byte_same (m : memory) (ptr : Z) (c : byte) : store_byte m ptr c ptr = c.
Proof. unfold store_byte. rewrite Z.eqb_refl. reflexivity. Qed.

Lemma store_byte_other (m : memory) (ptr a : Z) (c : byte) :
  a <> ptr -> store_byte m ptr c a = m a.
Proof.
  intros H. unfold store_byte. destruct (Z.eqb_spec a ptr); [contradiction | reflexivity].
Qed.

(** ** The byte loops *)

Lemma check_poison_loop_01 (m : memory) (ptr : Z) (n : nat) : forall i,
  check_poison_loop m ptr i n = 0 \/ check_poison_loop m ptr i n = 1.
Proof.
  induction n as [|n IH]; intros i; simpl; [now right|].
  destruct (Byte.eqb (m (ptr + i)) POISON_BYTE); [apply IH | now left].
Qed.

Lemma check_poison_loop_ok (m : memory) (ptr : Z) (n : nat) : forall i,
  check_poison_loop m ptr i n = 1 <->
  (forall k, 0 <= k < Z.of_nat n -> m (ptr + i + k) = POISON_BYTE).
Proof.
  induction n as [|n IH]; intros i.
  - simpl. split; [intros _ k Hk; lia | reflexivity].
  - cbn [check_poison_loop].
    destruct (Byte.eqb (m (ptr + i)) POISON_BYTE) eqn:E.
    + apply byte_eqb_eq in E. rewrite IH. split.
      * intros H k Hk. destruct (Z.eq_dec k 0) as [->|Hk0].
        -- rewrite Z.add_0_r. exact E.
        -- replace (ptr + i + k) with (ptr + (i + 1) + (k - 1)) by lia.
           apply H. lia.
      * intros H k Hk.
        replace (ptr + (i + 1) + k) with (ptr + i + (k + 1)) by lia.
        apply H. lia.
    + apply byte_eqb_neq in E. split; [discriminate|].
      intros H. exfalso. apply E.
      specialize (H 0). rewrite Z.add_0_r in H. apply H. lia.
Qed.

Lemma check_poison_loop_region (m : memory) (ptr n : Z) :
  check_poison_loop m ptr 0 (Z.to_nat n) = 1 <->
  (forall a, ptr <= a < ptr + n -> m a = POISON_BYTE).
Proof.
  rewrite check_poison_loop_ok. split.
  - intros H a Ha. replace a with (ptr + 0 + (a - ptr)) by lia. apply H. lia.
  - intros H k Hk. apply H. lia.
Qed.

Lemma check_poison_loop_ext (m m' : memory) (ptr : Z) (n : nat) : forall i,
  (forall k, 0 <= k < Z.of_nat n -> m' (ptr + i + k) = m (ptr + i + k)) ->
  check_poison_loop m' ptr i n = check_poison_loop m ptr i n.
Proof.
  induction n as [|n IH]; intros i H; simpl; [reflexivity|].
  pose proof (H 0) as H0. rewrite Z.add_0_r in H0. rewrite H0 by lia.
  rewrite IH; [reflexivity|].
  intros k Hk. replace (ptr + (i + 1) + k) with (ptr + i + (k + 1)) by lia.
  apply H. lia.
Qed.

Lemma dump_mem_ext (m m' : memory) (n : nat) : forall ptr,
  (forall a, ptr <= a < ptr + Z.of_nat n -> m' a = m a) ->
  dump_mem m' ptr n = dump_mem m ptr n.
Proof.
  induction n as [|n IH]; intros ptr Hm; simpl; [reflexivity|].
  rewrite Hm by lia. f_equal. apply IH. intros a Ha. apply Hm. lia.
Qed.

(* ------------------------------------------------------------------ *)
(** ** Sizes and the length record *)

Section Sizes.

Context `{cfg : Config}.

Lemma config_ok_spec :
  config_ok = true ->
  0 <= UMM_POISON_SIZE_BEFORE /\ 0 <= UMM_POISON_SIZE_AFTER /\
  0 < LEN_TYPE_SIZE /\ 8 * LEN_TYPE_SIZE <= SIZE_T_BITS /\
  UMM_POISON_SIZE_BEFORE + LEN_TYPE_SIZE + UMM_POISON_SIZE_AFTER < 2 ^ SIZE_T_BITS /\
  2 <= UMM_BODY_OFFSET /\ UMM_BODY_OFFSET <= UMM_BLOCK_SIZE.
Proof.
  unfold config_ok. intros H.
  repeat (apply andb_prop in H; destruct H as [H ?]).
  repeat match goal with
         | H : (_ <=? _) = true |- _ => apply Z.leb_le in H
         | H : (_ <? _) = true |- _ => apply Z.ltb_lt in H
         end.
  repeat split; assumption.
Qed.

Lemma wrap_size_small (z : Z) : 0 <= z < 2 ^ SIZE_T_BITS -> wrap_size z = z.
Proof. intros H. unfold wrap_size. apply Z.mod_small. exact H. Qed.

Lemma poison_size_zero : poison_size 0 = 0.
Proof. reflexivity. Qed.

Lemma poison_size_nonzero (s : Z) :
  config_ok = true -> s <> 0 ->
  poison_size s = UMM_POISON_SIZE_BEFORE + LEN_TYPE_SIZE + UMM_POISON_SIZE_AFTER.
Proof.
  intros Hc Hs. apply config_ok_spec in Hc.
  unfold poison_size. destruct (Z.eqb_spec s 0); [contradiction|].
  apply wrap_size_small. lia.
Qed.

Lemma len_max_le_size_max :
  config_ok = true -> LEN_MAX <= SIZE_MAX.
Proof.
  intros Hc. apply config_ok_spec in Hc.
  assert (H1 : 2 ^ LEN_BITS <= 2 ^ SIZE_T_BITS)
    by (apply Z.pow_le_mono_r; unfold LEN_BITS; lia).
  assert (H2 : 2 ^ (LEN_BITS - 1) <= 2 ^ LEN_BITS)
    by (apply Z.pow_le_mono_r; unfold LEN_BITS; lia).
  unfold LEN_MAX, SIZE_MAX. destruct LEN_TYPE_SIGNED; lia.
Qed.

Lemma len_cast_small (v : Z) :
  config_ok = true -> 0 <= v <= LEN_MAX -> len_cast v = v.
Proof.
  intros Hc Hv. apply config_ok_spec in Hc.
  assert (H2 : 2 ^ (LEN_BITS - 1) <= 2 ^ LEN_BITS)
    by (apply Z.pow_le_mono_r; unfold LEN_BITS; lia).
  unfold len_cast, LEN_MAX in *. destruct LEN_TYPE_SIGNED.
  - rewrite Z.mod_small by lia. unfold to_signed.
    destruct (Z.ltb_spec v (2 ^ (LEN_BITS - 1))); lia.
  - apply Z.mod_small. lia.
Qed.

Lemma load_len_ext (m m' : memory) (pc : Z) :
  (forall a, pc <= a < pc + LEN_TYPE_SIZE -> m' a = m a) ->
  load_len m' pc = load_len m pc.
Proof.
  intros H. unfold load_len.
  rewrite (load_le_ext m m'); [reflexivity|].
  intros a Ha. apply H. lia.
Qed.

Lemma load_store_len (m : memory) (ptr v : Z) :
  config_ok = true -> load_len (store_len m ptr v) ptr = len_cast v.
Proof.
  intros Hc. apply config_ok_spec in Hc.
  unfold load_len, store_len, len_cast, LEN_BITS.
  rewrite load_store_le by lia. reflexivity.
Qed.

Lemma header_next_ext (m m' : memory) (pblock : Z) :
  (forall a, pblock <= a < pblock + 2 -> m' a = m a) ->
  header_next m' pblock = header_next m pblock.
Proof.
  intros H. unfold header_next. apply load_le_ext. intros a Ha. apply H. lia.
Qed.

(** What [get_poisoned] leaves in memory when it poisons. *)
Lemma get_poisoned_poisons (st : state) (ptr size : Z) :
  config_ok = true -> size <> 0 -> ptr <> NULL ->
  exists st',
    get_poisoned st ptr size = (ptr + LEN_TYPE_SIZE + UMM_POISON_SIZE_BEFORE, st') /\
    umm_heap st' = umm_heap st /\ log st' = log st /\
    load_len (mem st') ptr = len_cast size /\
    (forall a, ptr + LEN_TYPE_SIZE <= a < ptr + LEN_TYPE_SIZE + UMM_POISON_SIZE_BEFORE ->
               mem st' a = POISON_BYTE) /\
    (forall a, ptr + size - UMM_POISON_SIZE_AFTER <= a < ptr + size ->
               a < ptr \/ ptr + LEN_TYPE_SIZE <= a ->
               mem st' a = POISON_BYTE) /\
    (forall a, a < ptr \/ ptr + LEN_TYPE_SIZE + UMM_POISON_SIZE_BEFORE <= a ->
               a < ptr + size - UMM_POISON_SIZE_AFTER \/ ptr + size <= a ->
               mem st' a = mem st a).
Proof.
  intros Hc Hs Hp. pose proof (config_ok_spec Hc) as Hcfg.
  unfold get_poisoned.
  destruct (Z.eqb_spec size 0); [contradiction|].
  destruct (Z.eqb_spec ptr NULL); [contradiction|]. cbn [negb andb].
  eexists. split; [reflexivity|]. cbn [mem umm_heap log set_mem].
  split; [reflexivity|]. split; [reflexivity|].
  split; [apply load_store_len; exact Hc|].
  unfold store_len, put_poison.
  split; [|split].
  - intros a Ha. rewrite store_le_out by lia.
    destruct (Z_lt_le_dec a (ptr + size - UMM_POISON_SIZE_AFTER)) as [Hlt|Hge].
    + rewrite memset_out by lia. apply memset_in. lia.
    + destruct (Z_lt_le_dec a (ptr + size)) as [Hlt2|Hge2].
      * apply memset_in. lia.
      * rewrite memset_out by lia. apply memset_in. lia.
  - intros a Ha Hout. rewrite store_le_out by lia. apply memset_in. lia.
  - intros a H1 H2. rewrite store_le_out by lia.
    rewrite memset_out by lia. apply memset_out. lia.
Qed.

End Sizes.

(* ------------------------------------------------------------------ *)
(** ** Verification of one block *)

Section Verify.

Context `{cfg : Config}.

Lemma check_poison_pass (st : state) (ptr n : Z) (where_ : string) :
  (forall a, ptr <= a < ptr + n -> mem st a = POISON_BYTE) ->
  check_poison st ptr n where_ = (1, st).
Proof.
  intros H. unfold check_poison.
  assert (E : check_poison_loop (mem st) ptr 0 (Z.to_nat n) = 1).
  { apply check_poison_loop_ok. intros k Hk. apply H. lia. }
  rewrite E. reflexivity.
Qed.

Lemma check_poison_fail (st : state) (ptr n a : Z) (where_ : string) :
  ptr <= a < ptr + n -> mem st a <> POISON_BYTE ->
  check_poison st ptr n where_
  = (0, emit st (violation_log (mem st) ptr n where_)).
Proof.
  intros Ha Hne. unfold check_poison.
  destruct (check_poison_loop_01 (mem st) ptr (Z.to_nat n) 0) as [E|E].
  - rewrite E. reflexivity.
  - exfalso. apply Hne.
    rewrite check_poison_loop_ok in E.
    replace a with (ptr + 0 + (a - ptr)) by lia. apply E. lia.
Qed.

Lemma check_poison_mem (st : state) (ptr n : Z) (where_ : string) :
  mem (snd (check_poison st ptr n where_)) = mem st /\
  umm_heap (snd (check_poison st ptr n where_)) = umm_heap st.
Proof.
  unfold check_poison.
  destruct (check_poison_loop (mem st) ptr 0 (Z.to_nat n) =? 0); split; reflexivity.
Qed.

Lemma check_poison_01 (st : state) (ptr n : Z) (where_ : string) :
  fst (check_poison st ptr n where_) = 0 \/ fst (check_poison st ptr n where_) = 1.
Proof.
  unfold check_poison.
  destruct (check_poison_loop_01 (mem st) ptr (Z.to_nat n) 0) as [E|E];
    rewrite E; simpl; auto.
Qed.

Lemma check_poison_block_free (st : state) (pblock : Z) :
  Z.land (header_next (mem st) pblock) UMM_FREELIST_MASK <> 0 ->
  check_poison_block st pblock
  = (1, emit st [DbgLogError "check_poison_block is called for free block 0x%lx\n"
                             [ANum pblock]]).
Proof.
  intros H. unfold check_poison_block.
  destruct (Z.eqb_spec (Z.land (header_next (mem st) pblock) UMM_FREELIST_MASK) 0);
    [contradiction | reflexivity].
Qed.

Lemma check_poison_block_pass (st : state) (pblock : Z) :
  Z.land (header_next (mem st) pblock) UMM_FREELIST_MASK = 0 ->
  (forall a, before_guard pblock <= a < before_guard pblock + UMM_POISON_SIZE_BEFORE ->
             mem st a = POISON_BYTE) ->
  (forall a, after_guard (mem st) pblock <= a
             < after_guard (mem st) pblock + UMM_POISON_SIZE_AFTER ->
             mem st a = POISON_BYTE) ->
  check_poison_block st pblock = (1, st).
Proof.
  intros Hu Hb Ha. unfold check_poison_block. rewrite Hu. cbn [Z.eqb negb].
  fold (before_guard pblock). rewrite (check_poison_pass _ _ _ _ Hb). cbn [Z.eqb].
  fold (after_guard (mem st) pblock). rewrite (check_poison_pass _ _ _ _ Ha).
  reflexivity.
Qed.

Lemma check_poison_block_fail_before (st : state) (pblock a : Z) :
  Z.land (header_next (mem st) pblock) UMM_FREELIST_MASK = 0 ->
  before_guard pblock <= a < before_guard pblock + UMM_POISON_SIZE_BEFORE ->
  mem st a <> POISON_BYTE ->
  check_poison_block st pblock
  = (0, emit st (violation_log (mem st) (before_guard pblock)
                               UMM_POISON_SIZE_BEFORE "before")).
Proof.
  intros Hu Ha Hne. unfold check_poison_block. rewrite Hu. cbn [Z.eqb negb].
  fold (before_guard pblock).
  rewrite (check_poison_fail _ _ _ a _ Ha Hne). reflexivity.
Qed.

Lemma check_poison_block_fail_after (st : state) (pblock a : Z) :
  Z.land (header_next (mem st) pblock) UMM_FREELIST_MASK = 0 ->
  (forall x, before_guard pblock <= x < before_guard pblock + UMM_POISON_SIZE_BEFORE ->
             mem st x = POISON_BYTE) ->
  after_guard (mem st) pblock <= a
  < after_guard (mem st) pblock + UMM_POISON_SIZE_AFTER ->
  mem st a <> POISON_BYTE ->
  check_poison_block st pblock
  = (0, emit st (violation_log (mem st) (after_guard (mem st) pblock)
                               UMM_POISON_SIZE_AFTER "after")).
Proof.
  intros Hu Hb Ha Hne. unfold check_poison_block. rewrite Hu. cbn [Z.eqb negb].
  fold (before_guard pblock). rewrite (check_poison_pass _ _ _ _ Hb). cbn [Z.eqb].
  fold (after_guard (mem st) pblock).
  rewrite (check_poison_fail _ _ _ a _ Ha Hne). reflexivity.
Qed.

Lemma check_poison_block_mem (st : state) (pblock : Z) :
  mem (snd (check_poison_block st pblock)) = mem st /\
  umm_heap (snd (check_poison_block st pblock)) = umm_heap st.
Proof.
  unfold check_poison_block.
  destruct (negb _); [split; reflexivity|].
  pose proof (check_poison_mem st (pblock + UMM_BODY_OFFSET + LEN_TYPE_SIZE)
                UMM_POISON_SIZE_BEFORE "before") as [H1 H1'].
  destruct (check_poison st _ UMM_POISON_SIZE_BEFORE "before") as [r st1].
  cbn [snd] in H1, H1'.
  destruct (r =? 0); [split; assumption|].
  match goal with
  | |- context [check_poison st1 ?p ?n ?w] =>
      pose proof (check_poison_mem st1 p n w) as [H2 H2'];
      destruct (check_poison st1 p n w) as [r2 st2]
  end.
  cbn [snd] in H2, H2'.
  destruct (r2 =? 0); cbn [snd]; split; congruence.
Qed.

Lemma check_poison_block_01 (st : state) (pblock : Z) :
  fst (check_poison_block st pblock) = 0 \/ fst (check_poison_block st pblock) = 1.
Proof.
  unfold check_poison_block.
  destruct (negb _); [right; reflexivity|].
  destruct (check_poison st _ UMM_POISON_SIZE_BEFORE "before") as [r st1].
  destruct (r =? 0); [left; reflexivity|].
  match goal with
  | |- context [check_poison st1 ?p ?n ?w] =>
      destruct (check_poison st1 p n w) as [r2 st2]
  end.
  destruct (r2 =? 0); [left | right]; reflexivity.
Qed.

End Verify.

(* ------------------------------------------------------------------ *)
(** ** The allocation entry points *)

Section Facade.

Context `{cfg : Config} `{alloc : Allocator}.

(** C3 (as amended).  Calling [check_poison_block] on a block whose free
    bit is set is a usage error and not a corruption: the call logs one
    line that names the block, raises no assertion, leaves the memory
    alone, and returns 1, the value of a successful verification. *)
Theorem check_poison_block_on_free_block (st : state) (pblock : Z) :
  Z.land (header_next (mem st) pblock) UMM_FREELIST_MASK <> 0 ->
  fst (check_poison_block st pblock) = 1 /\
  mem (snd (check_poison_block st pblock)) = mem st /\
  log (snd (check_poison_block st pblock))
  = log st ++ [DbgLogError "check_poison_block is called for free block 0x%lx\n"
                           [ANum pblock]] /\
  ~ In AppErrorCheckFailed
       [DbgLogError "check_poison_block is called for free block 0x%lx\n"
                    [ANum pblock]].
Proof.
  intros H. rewrite (check_poison_block_free st pblock H). cbn.
  repeat split; try reflexivity.
  intros [E|[]]. discriminate E.
Qed.

Lemma get_poisoned_zero (st : state) (ptr : Z) : get_poisoned st ptr 0 = (ptr, st).
Proof. reflexivity. Qed.

Lemma get_poisoned_null (st : state) (size : Z) : get_poisoned st NULL size = (NULL, st).
Proof.
  unfold get_poisoned. rewrite Z.eqb_refl, andb_false_r. reflexivity.
Qed.

Lemma get_unpoisoned_null (st : state) : get_unpoisoned st NULL = (NULL, st).
Proof. reflexivity. Qed.

Lemma wrap_size_zero : wrap_size 0 = 0.
Proof. unfold wrap_size. apply Zmod_0_l. Qed.

(** C4 (as amended).  [umm_poison_malloc(0)] has no poisoning overhead:
    it asks the allocator for zero bytes and returns the allocator's
    pointer and state as they are, nothing written.  When that pointer is
    null, [umm_poison_free] verifies nothing: it hands the null pointer
    and the unchanged state to [umm_free].  Null is the only pointer for
    which it does so: any other pointer is stepped back over the length
    record and the guard, and the block it falls in is verified before
    [umm_free] is called. *)
Theorem umm_poison_malloc_zero (st : state) :
  poison_size 0 = 0 /\
  umm_poison_malloc st 0 = umm_malloc st 0 /\
  (fst (umm_malloc st 0) = NULL ->
   umm_poison_free (snd (umm_poison_malloc st 0)) (fst (umm_poison_malloc st 0))
   = umm_free (snd (umm_malloc st 0)) NULL) /\
  (forall st' ptr,
     ptr <> NULL ->
     let raw := ptr - (LEN_TYPE_SIZE + UMM_POISON_SIZE_BEFORE) in
     let c := (wrap_size (raw - umm_heap st') / UMM_BLOCK_SIZE) mod 2 ^ 16 in
     umm_poison_free st' ptr
     = umm_free (snd (check_poison_block st' (UMM_BLOCK st' c))) raw).
Proof.
  assert (E : umm_poison_malloc st 0 = umm_malloc st 0).
  { unfold umm_poison_malloc. rewrite ?poison_size_zero, ?Z.add_0_r, ?wrap_size_zero.
    destruct (umm_malloc st 0) as [ret st1]. apply get_poisoned_zero. }
  split; [reflexivity|]. split; [exact E|]. split.
  - intros Hnull. rewrite E, Hnull.
    unfold umm_poison_free. rewrite get_unpoisoned_null. reflexivity.
  - intros st' ptr Hptr raw c. unfold umm_poison_free, get_unpoisoned.
    destruct (Z.eqb_spec ptr NULL); [contradiction|]. cbn [negb].
    fold raw. fold c.
    destruct (check_poison_block st' (UMM_BLOCK st' c)) as [r st1]. reflexivity.
Qed.

(** C6.  When the underlying allocator returns null, [umm_poison_malloc],
    [umm_poison_calloc] and [umm_poison_realloc] return exactly what the
    allocator returned: the null pointer, and the state as the allocator
    left it, so nothing is written and nothing is logged or asserted for
    the null result. *)
Theorem null_result_propagates (st : state) (size num item_size ptr : Z) :
  (fst (umm_malloc st (wrap_size (size + poison_size size))) = NULL ->
   umm_poison_malloc st size
   = (NULL, snd (umm_malloc st (wrap_size (size + poison_size size))))) /\
  (let total := wrap_size (wrap_size (item_size * num)
                           + poison_size (wrap_size (item_size * num))) in
   fst (umm_malloc st total) = NULL ->
   umm_poison_calloc st num item_size = (NULL, snd (umm_malloc st total))) /\
  (let total := wrap_size (size + poison_size size) in
   let raw := get_unpoisoned st ptr in
   fst (umm_realloc (snd raw) (fst raw) total) = NULL ->
   umm_poison_realloc st ptr size
   = (NULL, snd (umm_realloc (snd raw) (fst raw) total))).
Proof.
  split; [|split].
  - intros H. unfold umm_poison_malloc.
    destruct (umm_malloc st _) as [ret st1]. cbn [fst snd] in *. subst ret.
    apply get_poisoned_null.
  - intros total H. unfold umm_poison_calloc. fold total.
    destruct (umm_malloc st total) as [ret st1]. cbn [fst snd] in *. subst ret.
    rewrite Z.eqb_refl. cbn [negb]. apply get_poisoned_null.
  - intros total raw H. unfold umm_poison_realloc. fold raw.
    destruct raw as [p st1]. fold total. cbn [fst snd] in *.
    destruct (umm_realloc st1 p total) as [ret st2]. cbn [fst snd] in *. subst ret.
    apply get_poisoned_null.
Qed.

(** C8.  [umm_poison_calloc] takes its user size as the product
    [item_size * num] modulo [2 ^ SIZE_T_BITS] and checks nothing: with
    [size] that remainder and [total] the remainder of [size] plus its
    poison overhead, the call is one call of [umm_malloc] for [total], the
    zero-fill of [total] bytes when the result is not null, and
    [get_poisoned] for [total].  So two requests whose products agree
    modulo [2 ^ SIZE_T_BITS] are the same request, and a request whose
    product overflows is served from the wrapped size, which is smaller
    than the product: no failure is reported, and when the allocator
    serves the wrapped total the result is not null and is poisoned for
    that total. *)
Theorem umm_poison_calloc_wraps (st : state) (num item_size : Z) :
  let size := (item_size * num) mod 2 ^ SIZE_T_BITS in
  let total := (size + poison_size size) mod 2 ^ SIZE_T_BITS in
  umm_poison_calloc st num item_size
  = (let '(ret, st1) := umm_malloc st total in
     get_poisoned (if negb (NULL =? ret)
                   then set_mem st1 (memset (mem st1) ret x00 total)
                   else st1)
                  ret total) /\
  (forall num' item_size',
     (item_size' * num') mod 2 ^ SIZE_T_BITS = (item_size * num) mod 2 ^ SIZE_T_BITS ->
     umm_poison_calloc st num' item_size' = umm_poison_calloc st num item_size) /\
  (config_ok = true ->
   2 ^ SIZE_T_BITS <= item_size * num ->
   0 <= size < 2 ^ SIZE_T_BITS /\
   size < item_size * num /\
   (0 < fst (umm_malloc st total) ->
    0 < fst (umm_poison_calloc st num item_size)) /\
   (fst (umm_malloc st total) <> NULL -> total <> 0 ->
    fst (umm_poison_calloc st num item_size)
    = fst (umm_malloc st total) + LEN_TYPE_SIZE + UMM_POISON_SIZE_BEFORE /\
    load_len (mem (snd (umm_poison_calloc st num item_size)))
             (fst (umm_malloc st total))
    = len_cast total)).
Proof.
  intros size total.
  assert (E : umm_poison_calloc st num item_size
              = (let '(ret, st1) := umm_malloc st total in
                 get_poisoned (if negb (NULL =? ret)
                               then set_mem st1 (memset (mem st1) ret x00 total)
                               else st1)
                              ret total)) by reflexivity.
  split; [exact E|]. split.
  - intros num' item_size' Ep.
    assert (Ew : wrap_size (item_size' * num') = wrap_size (item_size * num))
      by exact Ep.
    unfold umm_poison_calloc. rewrite Ew. reflexivity.
  - intros Hc Hov.
    pose proof (config_ok_spec Hc) as Hcfg.
    assert (Hsz : 0 <= size < 2 ^ SIZE_T_BITS)
      by (apply Z.mod_pos_bound; lia).
    split; [exact Hsz|]. split; [lia|].
    rewrite E. destruct (umm_malloc st total) as [ret st1]. cbn [fst].
    split.
    + intros Hret. unfold get_poisoned.
      destruct (negb (total =? 0) && negb (ret =? NULL)); cbn [fst]; lia.
    + intros Hret Ht.
      destruct (get_poisoned_poisons
                  (if negb (NULL =? ret)
                   then set_mem st1 (memset (mem st1) ret x00 total) else st1)
                  ret total Hc Ht Hret) as (st' & Eg & _ & _ & Hlen & _).
      rewrite Eg. cbn [fst snd]. split; [reflexivity | exact Hlen].
Qed.

(** C10.  [umm_poison_malloc] adds the poison overhead to the size in
    [size_t] arithmetic and checks nothing: for a size above [SIZE_MAX]
    minus the overhead the total is [size + overhead - 2 ^ SIZE_T_BITS],
    which is below the overhead and below the size asked for; the
    allocator is asked for that wrapped total and its block is poisoned
    with that wrapped total. *)
Theorem umm_poison_malloc_total_wraps (st : state) (size : Z) :
  config_ok = true ->
  SIZE_MAX - (UMM_POISON_SIZE_BEFORE + LEN_TYPE_SIZE + UMM_POISON_SIZE_AFTER) < size
  <= SIZE_MAX ->
  let overhead := UMM_POISON_SIZE_BEFORE + LEN_TYPE_SIZE + UMM_POISON_SIZE_AFTER in
  let total := size + overhead - 2 ^ SIZE_T_BITS in
  wrap_size (size + poison_size size) = total /\
  0 <= total < overhead /\ total < size /\
  umm_poison_malloc st size
  = (let '(ret, st1) := umm_malloc st total in get_poisoned st1 ret total) /\
  (fst (umm_malloc st total) <> NULL -> total <> 0 ->
   fst (umm_poison_malloc st size)
   = fst (umm_malloc st total) + LEN_TYPE_SIZE + UMM_POISON_SIZE_BEFORE /\
   load_len (mem (snd (umm_poison_malloc st size))) (fst (umm_malloc st total))
   = len_cast total /\
   forall a, fst (umm_malloc st total) + total - UMM_POISON_SIZE_AFTER <= a
             < fst (umm_malloc st total) + total ->
             a < fst (umm_malloc st total) \/
             fst (umm_malloc st total) + LEN_TYPE_SIZE <= a ->
             mem (snd (umm_poison_malloc st size)) a = POISON_BYTE).
Proof.
  intros Hc Hsize overhead total.
  pose proof (config_ok_spec Hc) as Hcfg. unfold SIZE_MAX in Hsize.
  assert (Hs0 : size <> 0) by (fold overhead in Hsize; lia).
  assert (Hw : wrap_size (size + poison_size size) = total).
  { rewrite (poison_size_nonzero size Hc Hs0). fold overhead.
    unfold wrap_size, total. symmetry.
    apply (Z.mod_unique (size + overhead) (2 ^ SIZE_T_BITS) 1); [left|]; lia. }
  split; [exact Hw|]. split; [unfold total; lia|]. split; [unfold total; lia|].
  assert (E : umm_poison_malloc st size
              = (let '(ret, st1) := umm_malloc st total in get_poisoned st1 ret total)).
  { unfold umm_poison_malloc. rewrite Hw. reflexivity. }
  split; [exact E|].
  intros Hret Ht. rewrite E.
  destruct (umm_malloc st total) as [ret st1]. cbn [fst] in *.
  destruct (get_poisoned_poisons st1 ret total Hc Ht Hret)
    as (st' & Eg & _ & _ & Hlen & _ & Hafter & _).
  rewrite Eg. cbn [fst snd]. repeat split; assumption.
Qed.

End Facade.

(* ------------------------------------------------------------------ *)
(** ** The length record and the zero-filled allocation *)

Section LengthRecord.

Context `{cfg : Config} `{alloc : Allocator}.

Lemma check_poison_block_after (st : state) (pblock : Z) :
  Z.land (header_next (mem st) pblock) UMM_FREELIST_MASK = 0 ->
  (forall a, before_guard pblock <= a < before_guard pblock + UMM_POISON_SIZE_BEFORE ->
             mem st a = POISON_BYTE) ->
  check_poison_block st pblock
  = check_poison st (pblock + UMM_BODY_OFFSET
                     + load_len (mem st) (pblock + UMM_BODY_OFFSET)
                     - UMM_POISON_SIZE_AFTER)
                 UMM_POISON_SIZE_AFTER "after".
Proof.
  intros Hu Hb. unfold check_poison_block. rewrite Hu. cbn [Z.eqb negb].
  fold (before_guard pblock). rewrite (check_poison_pass _ _ _ _ Hb). cbn [Z.eqb].
  match goal with
  | |- context [check_poison st ?p ?n ?w] =>
      pose proof (check_poison_01 st p n w) as H01;
      destruct (check_poison st p n w) as [r st2]
  end.
  cbn [fst] in H01. destruct H01 as [-> | ->]; reflexivity.
Qed.

(** C5 (as amended).  For a successful allocation of user size [size > 0]
    whose total, the size of the length record plus both guard sizes plus
    [size], fits the length-record type, the length record holds exactly
    that total, whatever block the allocator handed out; and verification
    of a used block reads the length record and checks the guard after the
    payload at body + length record - after-guard size, which for the new
    allocation is where the guard was written. *)
Theorem length_record_exact (st : state) (size : Z) :
  config_ok = true ->
  0 < size ->
  LEN_TYPE_SIZE + UMM_POISON_SIZE_BEFORE + UMM_POISON_SIZE_AFTER + size <= LEN_MAX ->
  let total := LEN_TYPE_SIZE + UMM_POISON_SIZE_BEFORE + UMM_POISON_SIZE_AFTER + size in
  let raw := fst (umm_malloc st total) in
  raw <> NULL ->
  fst (umm_poison_malloc st size) = raw + LEN_TYPE_SIZE + UMM_POISON_SIZE_BEFORE /\
  load_len (mem (snd (umm_poison_malloc st size))) raw = total /\
  after_guard (mem (snd (umm_poison_malloc st size))) (raw - UMM_BODY_OFFSET)
  = raw + total - UMM_POISON_SIZE_AFTER /\
  (forall s pblock,
     Z.land (header_next (mem s) pblock) UMM_FREELIST_MASK = 0 ->
     (forall a, before_guard pblock <= a < before_guard pblock + UMM_POISON_SIZE_BEFORE ->
                mem s a = POISON_BYTE) ->
     check_poison_block s pblock
     = check_poison s (pblock + UMM_BODY_OFFSET
                       + load_len (mem s) (pblock + UMM_BODY_OFFSET)
                       - UMM_POISON_SIZE_AFTER)
                    UMM_POISON_SIZE_AFTER "after").
Proof.
  intros Hc Hsize Hfit total raw Hraw.
  pose proof (config_ok_spec Hc) as Hcfg.
  pose proof (len_max_le_size_max Hc) as Hmax. unfold SIZE_MAX in Hmax.
  assert (Hw : wrap_size (size + poison_size size) = total).
  { rewrite (poison_size_nonzero size Hc) by lia.
    rewrite wrap_size_small; unfold total; lia. }
  assert (Hlen : load_len (mem (snd (umm_poison_malloc st size))) raw = total /\
                 fst (umm_poison_malloc st size)
                 = raw + LEN_TYPE_SIZE + UMM_POISON_SIZE_BEFORE).
  { unfold umm_poison_malloc. rewrite Hw. subst raw.
    destruct (umm_malloc st total) as [ret st1]. cbn [fst] in *.
    destruct (get_poisoned_poisons st1 ret total Hc) as (st' & Eg & _ & _ & Hl & _);
      [unfold total; lia | exact Hraw |].
    rewrite Eg. cbn [fst snd]. split; [|reflexivity].
    rewrite Hl. apply (len_cast_small total Hc). unfold total. lia. }
  destruct Hlen as [Hlen Hptr].
  split; [exact Hptr|]. split; [exact Hlen|]. split.
  - unfold after_guard.
    replace (raw - UMM_BODY_OFFSET + UMM_BODY_OFFSET) with raw by lia.
    rewrite Hlen. reflexivity.
  - intros s pblock. apply check_poison_block_after.
Qed.

(** C7 (as amended).  When the allocator returns a non-null block for a
    nonzero total, [umm_poison_calloc] zero-fills all [total] bytes first
    and poisons afterwards: the result is [get_poisoned] run on the
    zero-filled state, the guard before the payload holds the poison byte,
    the payload is zero, and the guard after the payload holds the poison
    byte whenever the total is at least the size of the length record plus
    the after-guard size, which it is unless the total wrapped. *)
Theorem umm_poison_calloc_zero_fill_first (st : state) (num item_size : Z) :
  config_ok = true ->
  let size := wrap_size (item_size * num) in
  let total := wrap_size (size + poison_size size) in
  let raw := fst (umm_malloc st total) in
  let st1 := snd (umm_malloc st total) in
  raw <> NULL -> total <> 0 ->
  umm_poison_calloc st num item_size
  = get_poisoned (set_mem st1 (memset (mem st1) raw x00 total)) raw total /\
  (forall a, raw + LEN_TYPE_SIZE <= a < raw + LEN_TYPE_SIZE + UMM_POISON_SIZE_BEFORE ->
             mem (snd (umm_poison_calloc st num item_size)) a = POISON_BYTE) /\
  (LEN_TYPE_SIZE + UMM_POISON_SIZE_AFTER <= total ->
   forall a, raw + total - UMM_POISON_SIZE_AFTER <= a < raw + total ->
             mem (snd (umm_poison_calloc st num item_size)) a = POISON_BYTE) /\
  (forall a, raw + LEN_TYPE_SIZE + UMM_POISON_SIZE_BEFORE <= a
             < raw + total - UMM_POISON_SIZE_AFTER ->
             mem (snd (umm_poison_calloc st num item_size)) a = x00).
Proof.
  intros Hc size total raw st1 Hraw Ht.
  pose proof (config_ok_spec Hc) as Hcfg.
  assert (E : umm_poison_calloc st num item_size
              = get_poisoned (set_mem st1 (memset (mem st1) raw x00 total)) raw total).
  { unfold umm_poison_calloc. fold size. fold total. subst raw st1.
    destruct (umm_malloc st total) as [ret s1]. cbn [fst snd] in *.
    destruct (Z.eqb_spec NULL ret) as [En|_]; [congruence|]. reflexivity. }
  split; [exact E|]. rewrite E.
  destruct (get_poisoned_poisons (set_mem st1 (memset (mem st1) raw x00 total))
              raw total Hc Ht Hraw)
    as (st' & Eg & _ & _ & _ & Hbefore & Hafter & Hrest).
  rewrite Eg. cbn [snd]. split; [exact Hbefore|]. split.
  - intros Hbig a Ha. apply Hafter; lia.
  - intros a Ha. rewrite Hrest by lia. cbn [mem set_mem].
    apply memset_in. lia.
Qed.

End LengthRecord.

(* ------------------------------------------------------------------ *)
(** ** The heap scan *)

Section Scan.

Context `{cfg : Config} `{alloc : Allocator}.

(** One turn of the loop, in the vocabulary of the heap shape. *)
Lemma umm_poison_check_loop_step (fuel : nat) (st : state) (ok cur : Z) :
  umm_poison_check_loop (S fuel) st ok cur
  = if next_index (mem st) (umm_heap st) cur =? 0 then Some (ok, st)
    else if is_free (mem st) (umm_heap st) cur
         then umm_poison_check_loop fuel st ok (next_index (mem st) (umm_heap st) cur)
         else let '(ok', st1) := check_poison_block st (block_at (umm_heap st) cur) in
              if ok' =? 0 then Some (ok', st1)
              else umm_poison_check_loop fuel st1 ok'
                     (next_index (mem st1) (umm_heap st1) cur).
Proof.
  cbn [umm_poison_check_loop].
  unfold next_index, is_free, UMM_NBLOCK, UMM_BLOCK, block_at.
  destruct (Z.land (header_next (mem st) (umm_heap st + cur * UMM_BLOCK_SIZE))
                   UMM_BLOCKNO_MASK =? 0); [reflexivity|].
  destruct (Z.land (header_next (mem st) (umm_heap st + cur * UMM_BLOCK_SIZE))
                   UMM_FREELIST_MASK =? 0); reflexivity.
Qed.

Lemma umm_poison_check_loop_sound (fuel : nat) : forall st cur r,
  umm_poison_check_loop fuel st 1 cur = Some r -> scan st cur r.
Proof.
  induction fuel as [|fuel IH]; intros st cur r H; [discriminate|].
  rewrite umm_poison_check_loop_step in H.
  destruct (Z.eqb_spec (next_index (mem st) (umm_heap st) cur) 0) as [E|E].
  - injection H as <-. apply scan_end. exact E.
  - destruct (is_free (mem st) (umm_heap st) cur) eqn:Ef.
    + apply scan_free; auto.
    + pose proof (check_poison_block_01 st (block_at (umm_heap st) cur)) as H01.
      destruct (check_poison_block st (block_at (umm_heap st) cur)) as [ok' st1] eqn:Ec.
      cbn [fst] in H01. destruct H01 as [-> | ->]; cbn [Z.eqb] in H.
      * injection H as <-. eapply scan_violation; eauto.
      * eapply scan_verified; eauto. discriminate.
Qed.

Lemma umm_poison_check_loop_complete (st : state) (cur : Z) (r : Z * state) :
  scan st cur r ->
  exists fuel, forall fuel', (fuel <= fuel')%nat ->
    umm_poison_check_loop fuel' st 1 cur = Some r.
Proof.
  induction 1 as [st cur E | st cur r E Ef _ IH | st cur st' E Ef Ec
                 | st cur ok st' r E Ef Ec Hok _ IH].
  - exists 1%nat. intros [|f] Hf; [lia|].
    rewrite umm_poison_check_loop_step, E. reflexivity.
  - destruct IH as [fuel IH]. exists (S fuel). intros [|f] Hf; [lia|].
    rewrite umm_poison_check_loop_step, Ef.
    destruct (Z.eqb_spec (next_index (mem st) (umm_heap st) cur) 0); [contradiction|].
    apply IH. lia.
  - exists 1%nat. intros [|f] Hf; [lia|].
    rewrite umm_poison_check_loop_step, Ef, Ec.
    destruct (Z.eqb_spec (next_index (mem st) (umm_heap st) cur) 0); [contradiction|].
    reflexivity.
  - destruct IH as [fuel IH]. exists (S fuel). intros [|f] Hf; [lia|].
    rewrite umm_poison_check_loop_step, Ef, Ec.
    destruct (Z.eqb_spec (next_index (mem st) (umm_heap st) cur) 0); [contradiction|].
    pose proof (check_poison_block_01 st (block_at (umm_heap st) cur)) as H01.
    rewrite Ec in H01. cbn [fst] in H01.
    destruct H01 as [-> | ->]; [contradiction|]. cbn [Z.eqb].
    apply IH. lia.
Qed.

(** On a chain that reaches a zero next-index the loop ends within one
    turn per block of the chain, plus the one that sees the zero. *)
Lemma umm_poison_check_loop_ends (l : list Z) : forall st ok cur,
  chainb (mem st) (umm_heap st) cur l = true ->
  exists r, umm_poison_check_loop (S (length l)) st ok cur = Some r.
Proof.
  induction l as [|b l IH]; intros st ok cur H; cbn [chainb] in H.
  - rewrite umm_poison_check_loop_step, H. eauto.
  - repeat (apply andb_prop in H; destruct H as [H ?]).
    cbn [length]. rewrite umm_poison_check_loop_step.
    destruct (next_index (mem st) (umm_heap st) cur =? 0); [eauto|].
    destruct (is_free (mem st) (umm_heap st) cur); [apply IH; assumption|].
    pose proof (check_poison_block_mem st (block_at (umm_heap st) cur)) as [Hm Hh].
    destruct (check_poison_block st (block_at (umm_heap st) cur)) as [ok' st1].
    cbn [snd] in Hm, Hh.
    destruct (ok' =? 0); [eauto|].
    apply IH. rewrite Hm, Hh. assumption.
Qed.

End Scan.

(* ------------------------------------------------------------------ *)
(** ** Writes inside one block leave the rest of the heap as it was *)

Section Frame.

Context `{cfg : Config}.

Variables (m1 m2 : memory) (h lo hi : Z).

Hypothesis Hc : config_ok = true.

(** The two memories differ inside [lo, hi) at most. *)
Hypothesis Hagree : forall a, a < lo \/ hi <= a -> m2 a = m1 a.

Lemma block_at_mono (x y : Z) : x <= y -> block_at h x <= block_at h y.
Proof.
  pose proof (config_ok_spec Hc) as Hcfg. unfold block_at. nia.
Qed.

Lemma block_at_step (x y : Z) :
  x < y -> block_at h x + UMM_BLOCK_SIZE <= block_at h y.
Proof.
  pose proof (config_ok_spec Hc) as Hcfg. unfold block_at. nia.
Qed.

Lemma next_index_nonneg (m : memory) (b : Z) : 0 <= next_index m h b.
Proof.
  unfold next_index. apply Z.land_nonneg. right. unfold UMM_BLOCKNO_MASK. lia.
Qed.

Lemma link_transfer (b : Z) :
  block_at h b + 2 <= lo \/ hi <= block_at h b ->
  next_index m2 h b = next_index m1 h b /\ is_free m2 h b = is_free m1 h b.
Proof.
  intros Hsep.
  assert (E : header_next m2 (block_at h b) = header_next m1 (block_at h b)).
  { apply header_next_ext. intros a Ha. apply Hagree. lia. }
  unfold next_index, is_free. rewrite E. split; reflexivity.
Qed.

Lemma poisoned_block_spec (m : memory) (b : Z) :
  poisoned_block m h b = true ->
  let pblock := block_at h b in
  let len := load_len m (pblock + UMM_BODY_OFFSET) in
  LEN_TYPE_SIZE + UMM_POISON_SIZE_BEFORE + UMM_POISON_SIZE_AFTER <= len /\
  pblock + UMM_BODY_OFFSET + len <= block_at h (next_index m h b) /\
  (forall a, before_guard pblock <= a < before_guard pblock + UMM_POISON_SIZE_BEFORE ->
             m a = POISON_BYTE) /\
  (forall a, after_guard m pblock <= a < after_guard m pblock + UMM_POISON_SIZE_AFTER ->
             m a = POISON_BYTE).
Proof.
  intros H. cbv zeta. unfold poisoned_block in H.
  set (pblock := block_at h b) in *.
  repeat (apply andb_prop in H; destruct H as [H ?]).
  repeat match goal with
         | H : (_ <=? _) = true |- _ => apply Z.leb_le in H
         | H : (_ =? _) = true |- _ => apply Z.eqb_eq in H
         end.
  split; [assumption|]. split; [assumption|]. split.
  - intros a Ha.
    match goal with
    | Hb : check_poison_loop m (before_guard _) 0 _ = 1 |- _ =>
        rewrite check_poison_loop_ok in Hb;
        replace a with (before_guard pblock + 0 + (a - before_guard pblock)) by lia;
        apply Hb; lia
    end.
  - intros a Ha.
    match goal with
    | Hb : check_poison_loop m (after_guard _ _) 0 _ = 1 |- _ =>
        rewrite check_poison_loop_ok in Hb;
        replace a with (after_guard m pblock + 0 + (a - after_guard m pblock)) by lia;
        apply Hb; lia
    end.
Qed.

Lemma poisoned_transfer (b : Z) :
  hi <= block_at h b \/ block_at h (next_index m1 h b) <= lo ->
  poisoned_block m1 h b = true -> poisoned_block m2 h b = true.
Proof.
  intros Hsep Hp. pose proof (config_ok_spec Hc) as Hcfg.
  pose proof (poisoned_block_spec m1 b Hp) as (Hlen & Hend & _ & _).
  cbv zeta in Hlen, Hend.
  assert (E1 : next_index m2 h b = next_index m1 h b)
    by (apply link_transfer; lia).
  assert (E2 : load_len m2 (block_at h b + UMM_BODY_OFFSET)
               = load_len m1 (block_at h b + UMM_BODY_OFFSET)).
  { apply load_len_ext. intros a Ha. apply Hagree. lia. }
  assert (E3 : after_guard m2 (block_at h b) = after_guard m1 (block_at h b))
    by (unfold after_guard; rewrite E2; reflexivity).
  assert (E4 : check_poison_loop m2 (before_guard (block_at h b)) 0
                                 (Z.to_nat UMM_POISON_SIZE_BEFORE)
               = check_poison_loop m1 (before_guard (block_at h b)) 0
                                   (Z.to_nat UMM_POISON_SIZE_BEFORE)).
  { apply check_poison_loop_ext. intros k Hk. apply Hagree.
    unfold before_guard. lia. }
  assert (E5 : check_poison_loop m2 (after_guard m1 (block_at h b)) 0
                                 (Z.to_nat UMM_POISON_SIZE_AFTER)
               = check_poison_loop m1 (after_guard m1 (block_at h b)) 0
                                   (Z.to_nat UMM_POISON_SIZE_AFTER)).
  { apply check_poison_loop_ext. intros k Hk. apply Hagree.
    unfold after_guard. lia. }
  unfold poisoned_block in *. rewrite E1, E2, E3, E4, E5. exact Hp.
Qed.

Lemma chain_ge (m : memory) (l : list Z) : forall cur,
  chainb m h cur l = true -> forall b, In b l -> cur <= b.
Proof.
  induction l as [|c l IH]; intros cur H b Hb; [destruct Hb|].
  cbn [chainb] in H. repeat (apply andb_prop in H; destruct H as [H ?]).
  apply Z.eqb_eq in H.
  assert (Hlt : cur < next_index m h cur) by (apply Z.ltb_lt; assumption).
  destruct Hb as [<- | Hb]; [lia|].
  assert (Hge : next_index m h cur <= b) by (apply IH; assumption). lia.
Qed.

(** The blocks of a chain that starts at or above [hi]. *)
Lemma heap_transfer_above (l : list Z) : forall cur,
  chainb m1 h cur l = true -> hi <= block_at h cur ->
  chainb m2 h cur l = true /\
  forall b, In b l ->
    next_index m2 h b = next_index m1 h b /\
    is_free m2 h b = is_free m1 h b /\
    (poisoned_block m1 h b = true -> poisoned_block m2 h b = true).
Proof.
  induction l as [|c l IH]; intros cur H Hhi.
  - cbn [chainb] in *. destruct (link_transfer cur) as [E _]; [lia|].
    rewrite E. split; [exact H | intros b []].
  - cbn [chainb] in *.
    destruct (link_transfer cur) as [En Ef]; [lia|].
    repeat (apply andb_prop in H; destruct H as [H ?]).
    apply Z.eqb_eq in H. subst c.
    assert (Hlt : cur < next_index m1 h cur) by (apply Z.ltb_lt; assumption).
    assert (Hmono : block_at h cur <= block_at h (next_index m1 h cur))
      by (apply block_at_mono; lia).
    destruct (IH (next_index m1 h cur)) as [IHc IHb]; [assumption | lia |].
    split.
    + rewrite En, Z.eqb_refl. cbn [andb].
      repeat (apply andb_true_intro; split); assumption.
    + intros b [<- | Hb]; [|apply IHb; exact Hb].
      split; [exact En|]. split; [exact Ef|].
      apply poisoned_transfer. lia.
Qed.

(** The blocks of a chain one of whose blocks, [b0], holds [lo, hi) in its
    body. *)
Lemma heap_transfer (b0 : Z) :
  block_at h b0 + 2 <= lo -> hi <= block_at h (next_index m1 h b0) ->
  forall l cur,
  chainb m1 h cur l = true -> In b0 l ->
  chainb m2 h cur l = true /\
  forall b, In b l ->
    next_index m2 h b = next_index m1 h b /\
    is_free m2 h b = is_free m1 h b /\
    (b <> b0 -> poisoned_block m1 h b = true -> poisoned_block m2 h b = true).
Proof.
  intros Hlo Hhi. pose proof (config_ok_spec Hc) as Hcfg.
  induction l as [|c l IH]; intros cur H Hin; [destruct Hin|].
  cbn [chainb] in *.
  repeat (apply andb_prop in H; destruct H as [H ?]).
  apply Z.eqb_eq in H. subst c.
  assert (Hlt : cur < next_index m1 h cur) by (apply Z.ltb_lt; assumption).
  pose proof (block_at_step cur (next_index m1 h cur) Hlt) as Hstep.
  destruct (Z.eq_dec cur b0) as [-> | Hne].
  - destruct (link_transfer b0) as [En Ef]; [lia|].
    destruct (heap_transfer_above l (next_index m1 h b0)) as [Hch Hbs];
      [assumption | lia |].
    split.
    + rewrite En, Z.eqb_refl. cbn [andb].
      repeat (apply andb_true_intro; split); assumption.
    + intros b [<- | Hb].
      * split; [exact En|]. split; [exact Ef|]. intros Hn. contradiction.
      * destruct (Hbs b Hb) as (? & ? & ?). auto.
  - destruct Hin as [-> | Hin]; [contradiction|].
    assert (Hge : next_index m1 h cur <= b0)
      by (eapply chain_ge; eassumption).
    pose proof (block_at_mono _ _ Hge) as Hmono.
    destruct (link_transfer cur) as [En Ef]; [lia|].
    destruct (IH (next_index m1 h cur)) as [Hch Hbs]; [assumption | exact Hin |].
    split.
    + rewrite En, Z.eqb_refl. cbn [andb].
      repeat (apply andb_true_intro; split); assumption.
    + intros b [<- | Hb]; [|apply Hbs; exact Hb].
      split; [exact En|]. split; [exact Ef|].
      intros _. apply poisoned_transfer. lia.
Qed.

End Frame.

(* ------------------------------------------------------------------ *)
(** ** The scan on a heap of poisoned allocations *)

Section Detection.

Context `{cfg : Config} `{alloc : Allocator}.

(** Every used block of the chain passes: the scan succeeds and leaves the
    state as it found it. *)
Lemma scan_all_pass (l : list Z) : forall st cur,
  chainb (mem st) (umm_heap st) cur l = true ->
  (forall b, In b l ->
     is_free (mem st) (umm_heap st) b = true \/
     check_poison_block st (block_at (umm_heap st) b) = (1, st)) ->
  umm_poison_check_loop (S (length l)) st 1 cur = Some (1, st).
Proof.
  induction l as [|c l IH]; intros st cur H Hall; cbn [chainb] in H.
  - rewrite umm_poison_check_loop_step, H. reflexivity.
  - repeat (apply andb_prop in H; destruct H as [H ?]).
    apply Z.eqb_eq in H. subst c.
    cbn [length]. rewrite umm_poison_check_loop_step.
    destruct (next_index (mem st) (umm_heap st) cur =? 0); [discriminate|].
    assert (Hrest : umm_poison_check_loop (S (length l)) st 1
                      (next_index (mem st) (umm_heap st) cur) = Some (1, st)).
    { apply IH; [assumption|]. intros b Hb. apply Hall. right. exact Hb. }
    destruct (is_free (mem st) (umm_heap st) cur) eqn:Ef; [exact Hrest|].
    destruct (Hall cur (or_introl eq_refl)) as [Hf | Hp]; [congruence|].
    rewrite Hp. cbn [Z.eqb]. exact Hrest.
Qed.

(** The used blocks of the chain below block [b0] pass and [b0] does not:
    the scan fails with the result of verifying [b0], whatever the blocks
    above [b0] hold. *)
Lemma scan_first_violation (b0 : Z) (l : list Z) : forall st st' cur,
  chainb (mem st) (umm_heap st) cur l = true ->
  In b0 l ->
  is_free (mem st) (umm_heap st) b0 = false ->
  check_poison_block st (block_at (umm_heap st) b0) = (0, st') ->
  (forall b, In b l -> b < b0 ->
     is_free (mem st) (umm_heap st) b = true \/
     check_poison_block st (block_at (umm_heap st) b) = (1, st)) ->
  umm_poison_check_loop (S (length l)) st 1 cur = Some (0, st').
Proof.
  induction l as [|c l IH]; intros st st' cur H Hin Hused Hfail Hall; [destruct Hin|].
  cbn [chainb] in H. repeat (apply andb_prop in H; destruct H as [H ?]).
  apply Z.eqb_eq in H. subst c.
  assert (Hlt : cur < next_index (mem st) (umm_heap st) cur)
    by (apply Z.ltb_lt; assumption).
  cbn [length]. rewrite umm_poison_check_loop_step.
  destruct (Z.eqb_spec (next_index (mem st) (umm_heap st) cur) 0) as [E0|_];
    [rewrite E0 in *; discriminate|].
  destruct (Z.eq_dec cur b0) as [-> | Hne].
  - rewrite Hused, Hfail. reflexivity.
  - destruct Hin as [-> | Hin]; [contradiction|].
    assert (Hge : next_index (mem st) (umm_heap st) cur <= b0)
      by (eapply chain_ge; eassumption).
    assert (Hrest : umm_poison_check_loop (S (length l)) st 1
                      (next_index (mem st) (umm_heap st) cur) = Some (0, st')).
    { apply IH; try assumption. intros b Hb. apply Hall. right. exact Hb. }
    destruct (is_free (mem st) (umm_heap st) cur) eqn:Ef; [exact Hrest|].
    destruct (Hall cur (or_introl eq_refl)) as [Hf | Hp]; [lia | congruence |].
    rewrite Hp. cbn [Z.eqb]. exact Hrest.
Qed.

Lemma is_free_false (m : memory) (h b : Z) :
  is_free m h b = false ->
  Z.land (header_next m (block_at h b)) UMM_FREELIST_MASK = 0.
Proof.
  unfold is_free. intros H. apply negb_false_iff in H. apply Z.eqb_eq. exact H.
Qed.

(** A used block that holds a live poisoned allocation passes
    verification. *)
Lemma poisoned_block_passes (st : state) (b : Z) :
  is_free (mem st) (umm_heap st) b = false ->
  poisoned_block (mem st) (umm_heap st) b = true ->
  check_poison_block st (block_at (umm_heap st) b) = (1, st).
Proof.
  intros Hu Hp.
  pose proof (poisoned_block_spec (umm_heap st) (mem st) b Hp) as (_ & _ & Hb & Ha).
  apply check_poison_block_pass; [apply is_free_false; exact Hu | exact Hb | exact Ha].
Qed.

End Detection.

(* ------------------------------------------------------------------ *)
(** ** The scan and its specification *)

Section ScanSpec.

Context `{cfg : Config} `{alloc : Allocator}.

(** C9.  [umm_poison_check] returns a result exactly when the scan of the
    specification has it: the heap is initialised first when it is not
    yet, the pass starts at the block the chain head links to and follows
    the next-index links with the free bit masked out, every block on the
    way whose free bit is unset is verified, the first violation ends the
    pass with failure, and reaching a zero next-index ends it with
    success.  On a chain [l] that reaches a zero next-index the pass is
    over after one turn per block: it succeeds, the state untouched, when
    every used block of [l] passes verification, and it fails with the
    result of verifying [b0] when [b0] is the first used block of [l] that
    does not pass. *)
Theorem umm_poison_check_scans (st : state) :
  (forall r, (exists fuel, umm_poison_check fuel st = Some r) <-> checkAll st r) /\
  (forall l,
     let st0 := bootstrap st in
     chainb (mem st0) (umm_heap st0) (next_index (mem st0) (umm_heap st0) 0) l = true ->
     (exists r, umm_poison_check (S (length l)) st = Some r /\ checkAll st r) /\
     ((forall b, In b l ->
         is_free (mem st0) (umm_heap st0) b = true \/
         check_poison_block st0 (block_at (umm_heap st0) b) = (1, st0)) ->
      umm_poison_check (S (length l)) st = Some (1, st0)) /\
     (forall b0 st',
        In b0 l ->
        is_free (mem st0) (umm_heap st0) b0 = false ->
        check_poison_block st0 (block_at (umm_heap st0) b0) = (0, st') ->
        (forall b, In b l -> b < b0 ->
           is_free (mem st0) (umm_heap st0) b = true \/
           check_poison_block st0 (block_at (umm_heap st0) b) = (1, st0)) ->
        umm_poison_check (S (length l)) st = Some (0, st'))).
Proof.
  assert (E : forall fuel,
             umm_poison_check fuel st
             = umm_poison_check_loop fuel (bootstrap st) 1
                 (next_index (mem (bootstrap st)) (umm_heap (bootstrap st)) 0))
    by reflexivity.
  split.
  - intros r. unfold checkAll. split.
    + intros [fuel H]. rewrite E in H.
      apply (umm_poison_check_loop_sound fuel). exact H.
    + intros H. apply umm_poison_check_loop_complete in H.
      destruct H as [fuel H]. exists fuel. rewrite E. apply H. lia.
  - intros l st0 Hl. split; [|split].
    + destruct (umm_poison_check_loop_ends l _ 1 _ Hl) as [r Hr].
      exists r. rewrite E. split; [exact Hr|].
      apply (umm_poison_check_loop_sound (S (length l))). exact Hr.
    + intros Hall. rewrite E. apply scan_all_pass; assumption.
    + intros b0 st' Hin Hused Hfail Hall. rewrite E.
      apply (scan_first_violation b0); assumption.
Qed.

End ScanSpec.

(* ------------------------------------------------------------------ *)
(** ** Round trip and corruption detection *)

Section RoundTrip.

Context `{cfg : Config} `{alloc : Allocator}.

Lemma umm_poison_check_initialised (fuel : nat) (st : state) :
  umm_heap st <> NULL ->
  umm_poison_check fuel st
  = umm_poison_check_loop fuel st 1 (next_index (mem st) (umm_heap st) 0).
Proof.
  intros H. unfold umm_poison_check.
  destruct (Z.eqb_spec (umm_heap st) NULL); [contradiction | reflexivity].
Qed.

(** C2 (as amended).  Let [size > 0] be such that the total, [size] plus
    the poison overhead, fits the length-record type, and let the
    allocator return a non-null block of that total: a used block of an
    initialised heap whose chain is in order, with room for the total in
    its span, every other used block holding a live poisoned allocation.
    Then [umm_poison_check] run right after [umm_poison_malloc(size)]
    returns success and leaves the state as it is. *)
Theorem umm_poison_malloc_then_check (st : state) (size : Z) (l : list Z) (b : Z) :
  config_ok = true ->
  0 < size ->
  let total := LEN_TYPE_SIZE + UMM_POISON_SIZE_BEFORE + UMM_POISON_SIZE_AFTER + size in
  total <= LEN_MAX ->
  let raw := fst (umm_malloc st total) in
  let st1 := snd (umm_malloc st total) in
  raw <> NULL ->
  umm_heap st1 <> NULL ->
  fresh_block (mem st1) (umm_heap st1) l b total = true ->
  raw = block_at (umm_heap st1) b + UMM_BODY_OFFSET ->
  umm_poison_check (S (length l)) (snd (umm_poison_malloc st size))
  = Some (1, snd (umm_poison_malloc st size)).
Proof.
  intros Hc Hsize total Hfit raw st1 Hraw Hheap Hfresh Hbody.
  pose proof (config_ok_spec Hc) as Hcfg.
  pose proof (len_max_le_size_max Hc) as Hmax. unfold SIZE_MAX in Hmax.
  assert (Hw : wrap_size (size + poison_size size) = total).
  { rewrite (poison_size_nonzero size Hc) by lia.
    rewrite wrap_size_small; unfold total; lia. }
  assert (Hm : umm_poison_malloc st size = get_poisoned st1 raw total).
  { unfold umm_poison_malloc. rewrite Hw. subst raw st1.
    destruct (umm_malloc st total) as [ret s1]. reflexivity. }
  rewrite Hm. clear Hm Hw.
  destruct (get_poisoned_poisons st1 raw total Hc) as
    (st2 & Eg & Hh & _ & Hlen & Hbefore & Hafter & Hrest);
    [unfold total; lia | exact Hraw |].
  rewrite Eg. cbn [snd].
  rewrite (len_cast_small total Hc) in Hlen by (unfold total; lia).
  set (h := umm_heap st1) in *.
  (* what the allocator promised *)
  unfold fresh_block in Hfresh.
  repeat (apply andb_prop in Hfresh; destruct Hfresh as [Hfresh ?]).
  rename Hfresh into Hchain.
  match goal with H : existsb _ l = true |- _ =>
    apply existsb_exists in H; destruct H as (b' & Hin & Eb);
    apply Z.eqb_eq in Eb; subst b' end.
  match goal with H : negb (is_free _ _ b) = true |- _ =>
    apply negb_true_iff in H; rename H into Hused end.
  match goal with H : (_ <=? _) = true |- _ =>
    apply Z.leb_le in H; rename H into Hroom end.
  match goal with H : forallb _ l = true |- _ =>
    rewrite forallb_forall in H; rename H into Hothers end.
  assert (Hb0 : 0 <= b).
  { pose proof (next_index_nonneg h (mem st1) 0).
    pose proof (chain_ge h (mem st1) l _ Hchain b Hin). lia. }
  assert (Hblk : h <= block_at h b) by (unfold block_at; nia).
  (* the poisoning wrote inside the body of [b] only *)
  assert (Hagree : forall a, a < raw \/ raw + total <= a -> mem st2 a = mem st1 a).
  { intros a Ha. apply Hrest; unfold total in *; lia. }
  destruct (heap_transfer (mem st1) (mem st2) h raw (raw + total) Hc Hagree b)
    with (l := l) (cur := next_index (mem st1) h 0) as [Hchain2 Hblocks];
    [lia | lia | exact Hchain | exact Hin |].
  destruct (link_transfer (mem st1) (mem st2) h raw (raw + total) Hagree 0) as [Ehead _];
    [left; unfold block_at; lia|].
  rewrite umm_poison_check_initialised by (rewrite Hh; exact Hheap).
  rewrite Hh. fold h. rewrite Ehead.
  apply scan_all_pass; rewrite Hh; fold h; [exact Hchain2|].
  intros b' Hb'. destruct (Hblocks b' Hb') as (_ & Ef & Hp).
  destruct (is_free (mem st2) h b') eqn:Ef2; [left; reflexivity | right].
  destruct (Z.eq_dec b' b) as [-> | Hne].
  - (* the new allocation *)
    replace h with (umm_heap st2) by exact Hh.
    apply check_poison_block_pass.
    + rewrite Hh. apply is_free_false. exact Ef2.
    + rewrite Hh. fold h. unfold before_guard. rewrite <- Hbody.
      intros a Ha. apply Hbefore. lia.
    + rewrite Hh. fold h. unfold after_guard. rewrite <- Hbody, Hlen.
      intros a Ha. apply Hafter; unfold total in *; lia.
  - (* the allocations that were there *)
    specialize (Hothers b' Hb').
    rewrite <- Ef in Hothers.
    destruct (Z.eqb_spec b' b); [contradiction|]. cbn [orb] in Hothers.
    replace h with (umm_heap st2) by exact Hh.
    apply poisoned_block_passes; rewrite Hh; fold h; [exact Ef2|].
    apply Hp; assumption.
Qed.

End RoundTrip.

Section Corruption.

Context `{cfg : Config} `{alloc : Allocator}.

(** C1 (as amended).  Take an initialised heap of live poisoned
    allocations each of which keeps the invariant of the data model: the
    length record of every used block of the chain holds the total of its
    allocation (as it does when the total fits the length-record type), so
    that both guard regions are where the record locates them.  Overwrite
    one byte of one guard region of one used block of the chain with a value
    other than the poison byte.  Then [umm_poison_check] fails: it returns
    0, and what it logs is the violation diagnostic, which carries the side
    of the overwritten guard ("before" or "after") and the address of that
    guard region of that block, followed by the bytes found there and the
    fatal assertion. *)
Theorem corrupted_guard_detected
  (st : state) (l : list Z) (b a : Z) (v : byte) (where_ : string) (g n : Z) :
  config_ok = true ->
  umm_heap st <> NULL ->
  live_heap (mem st) (umm_heap st) l = true ->
  In b l ->
  is_free (mem st) (umm_heap st) b = false ->
  (where_ = "before"%string /\
   g = before_guard (block_at (umm_heap st) b) /\ n = UMM_POISON_SIZE_BEFORE) \/
  (where_ = "after"%string /\
   g = after_guard (mem st) (block_at (umm_heap st) b) /\ n = UMM_POISON_SIZE_AFTER) ->
  g <= a < g + n ->
  v <> POISON_BYTE ->
  let st' := set_mem st (store_byte (mem st) a v) in
  exists st'',
    umm_poison_check (S (length l)) st' = Some (0, st'') /\
    mem st'' = mem st' /\
    log st''
    = log st
      ++ DbgLogError "No poison %s block at: 0x%lx, actual data:" [AStr where_; ANum g]
      :: dump_mem (mem st') g (Z.to_nat n)
      ++ [DbgLogError "\n" []; AppErrorCheckFailed].
Proof.
  intros Hc Hheap Hlive Hin Hused Hside Ha Hv st'.
  pose proof (config_ok_spec Hc) as Hcfg.
  set (h := umm_heap st) in *. set (m1 := mem st) in *.
  set (m2 := store_byte m1 a v).
  unfold live_heap in Hlive. apply andb_prop in Hlive. destruct Hlive as [Hchain Hall].
  rewrite forallb_forall in Hall.
  (* the damaged block was a live poisoned allocation *)
  assert (Hpb : poisoned_block m1 h b = true).
  { specialize (Hall b Hin). rewrite Hused in Hall. exact Hall. }
  pose proof (poisoned_block_spec h m1 b Hpb) as (Hlen & Hend & Hbefore & Hafter).
  cbv zeta in Hlen, Hend, Hbefore, Hafter.
  set (pblock := block_at h b) in *.
  set (len := load_len m1 (pblock + UMM_BODY_OFFSET)) in *.
  assert (Harange : pblock + UMM_BODY_OFFSET + LEN_TYPE_SIZE <= a
                    < pblock + UMM_BODY_OFFSET + len).
  { destruct Hside as [(_ & -> & ->) | (_ & -> & ->)];
      unfold before_guard, after_guard in Ha; fold len in Ha; lia. }
  assert (Hb0 : 0 <= b).
  { pose proof (next_index_nonneg h m1 0).
    pose proof (chain_ge h m1 l _ Hchain b Hin). lia. }
  assert (Hblk : h <= pblock) by (unfold pblock, block_at; nia).
  (* one byte changed, inside the body of [b] *)
  assert (Hagree : forall x, x < a \/ a + 1 <= x -> m2 x = m1 x).
  { intros x Hx. apply store_byte_other. lia. }
  destruct (heap_transfer m1 m2 h a (a + 1) Hc Hagree b)
    with (l := l) (cur := next_index m1 h 0) as [Hchain2 Hblocks];
    [fold pblock; lia | lia | exact Hchain | exact Hin |].
  destruct (link_transfer m1 m2 h a (a + 1) Hagree 0) as [Ehead _];
    [left; unfold block_at; lia|].
  destruct (Hblocks b Hin) as (_ & Efb & _).
  assert (Hused2 : Z.land (header_next m2 pblock) UMM_FREELIST_MASK = 0).
  { apply is_free_false. rewrite Efb. exact Hused. }
  assert (Elen : load_len m2 (pblock + UMM_BODY_OFFSET) = len).
  { apply load_len_ext. intros x Hx. apply Hagree. lia. }
  assert (Eag : after_guard m2 pblock = after_guard m1 pblock)
    by (unfold after_guard; rewrite Elen; reflexivity).
  assert (Hma : m2 a <> POISON_BYTE)
    by (unfold m2; rewrite store_byte_same; exact Hv).
  (* verification of [b] fails on the side of the damaged guard *)
  assert (Hfail : check_poison_block st' pblock
                  = (0, emit st' (violation_log m2 g n where_))).
  { destruct Hside as [(-> & -> & ->) | (-> & -> & ->)].
    - apply (check_poison_block_fail_before st' pblock a); assumption.
    - fold pblock. rewrite <- Eag.
      apply (check_poison_block_fail_after st' pblock a); try assumption.
      + intros x Hx. change (mem st' x) with (m2 x). rewrite Hagree.
        * apply Hbefore. exact Hx.
        * fold pblock in Ha. unfold before_guard in Hx.
          unfold after_guard in Ha. fold len in Ha. lia.
      + change (mem st') with m2. rewrite Eag. exact Ha. }
  exists (emit st' (violation_log m2 g n where_)).
  split; [|split; reflexivity].
  rewrite umm_poison_check_initialised by exact Hheap.
  change (mem st') with m2. change (umm_heap st') with h. rewrite Ehead.
  apply (scan_first_violation b); try assumption.
  - change (is_free m2 h b = false). rewrite Efb. exact Hused.
  - intros b' Hb' Hlt. assert (Hne : b' <> b) by lia.
    destruct (Hblocks b' Hb') as (_ & Ef & Hp).
    change (mem st') with m2. change (umm_heap st') with h.
    destruct (is_free m2 h b') eqn:Ef2; [left; reflexivity | right].
    apply (poisoned_block_passes st' b'); [exact Ef2|].
    apply Hp; [exact Hne|].
    specialize (Hall b' Hb'). rewrite <- Ef in Hall. exact Hall.
Qed.

End Corruption.

(* ------------------------------------------------------------------ *)
(** ** The theorems at work on concrete heaps *)

(** The configuration of the examples is sane. *)
Lemma cfg442_ok : @config_ok cfg442 = true.
Proof. reflexivity. Qed.

(** C1 at work: the allocation of ten bytes of [ex_live], the byte two
    below the user pointer overwritten with zero. *)
Lemma corrupted_guard_detected_witness :
  exists st'',
    @umm_poison_check cfg442 (ex_alloc 4) 2
      (set_mem ex_live (store_byte (mem ex_live) 0x1010 x00)) = Some (0, st'') /\
    mem st'' = mem (set_mem ex_live (store_byte (mem ex_live) 0x1010 x00)) /\
    log st''
    = log ex_live
      ++ DbgLogError "No poison %s block at: 0x%lx, actual data:"
                     [AStr "before"; ANum 0x100E]
      :: dump_mem (mem (set_mem ex_live (store_byte (mem ex_live) 0x1010 x00)))
                  0x100E (Z.to_nat 4)
      ++ [DbgLogError "\n" []; AppErrorCheckFailed].
Proof.
  apply (@corrupted_guard_detected cfg442 (ex_alloc 4) ex_live [1] 1 0x1010 x00
           "before" 0x100E 4).
  - reflexivity.
  - intros H. vm_compute in H. discriminate H.
  - vm_compute. reflexivity.
  - left. reflexivity.
  - vm_compute. reflexivity.
  - left. repeat split; vm_compute; reflexivity.
  - lia.
  - discriminate.
Defined.

(** C1 as stated fails: [umm_poison_malloc(65532)] makes a total of 65542,
    which no 16-bit length record holds.  The allocator returns a block
    with room for the whole total on a heap that is in order, the guard
    after the payload is written at the end of the total, and the length
    record reads 6, which locates that guard on top of the guard before the
    payload.  The check that follows succeeds; overwrite a byte of the
    guard after the payload, where it was written, with zero, and the check
    still succeeds. *)
Lemma corrupted_guard_of_long_block_undetected :
  let st1 := snd (@umm_malloc (ex_alloc 8195) ex_st0 65542) in
  let st2 := snd (@umm_poison_malloc cfg442 (ex_alloc 8195) ex_st0 65532) in
  let a := ex_ptr + 65538 in
  @wrap_size cfg442 (65532 + @poison_size cfg442 65532) = 65542 /\
  fst (@umm_malloc (ex_alloc 8195) ex_st0 65542) = ex_ptr /\
  @fresh_block cfg442 (mem st1) (umm_heap st1) [1] 1 65542 = true /\
  umm_heap st2 <> NULL /\
  @is_free cfg442 (mem st2) (umm_heap st2) 1 = false /\
  @load_len cfg442 (mem st2) ex_ptr = 6 /\
  ex_ptr + 65542 - @UMM_POISON_SIZE_AFTER cfg442 <= a < ex_ptr + 65542 /\
  mem st2 a = POISON_BYTE /\
  @umm_poison_check cfg442 (ex_alloc 8195) 2 st2 = Some (1, st2) /\
  x00 <> POISON_BYTE /\
  @umm_poison_check cfg442 (ex_alloc 8195) 2
    (set_mem st2 (store_byte (mem st2) a x00))
  = Some (1, set_mem st2 (store_byte (mem st2) a x00)).
Proof.
  cbv zeta.
  set (st2 := snd (@umm_poison_malloc cfg442 (ex_alloc 8195) ex_st0 65532)).
  assert (Hscan : forall st,
            umm_heap st <> NULL ->
            @chainb cfg442 (mem st) (umm_heap st)
              (@next_index cfg442 (mem st) (umm_heap st) 0) [1] = true ->
            Z.land (@header_next (mem st) (@block_at cfg442 (umm_heap st) 1))
                   UMM_FREELIST_MASK = 0 ->
            @check_poison_loop (mem st)
              (@before_guard cfg442 (@block_at cfg442 (umm_heap st) 1)) 0
              (Z.to_nat (@UMM_POISON_SIZE_BEFORE cfg442)) = 1 ->
            @check_poison_loop (mem st)
              (@after_guard cfg442 (mem st) (@block_at cfg442 (umm_heap st) 1)) 0
              (Z.to_nat (@UMM_POISON_SIZE_AFTER cfg442)) = 1 ->
            @umm_poison_check cfg442 (ex_alloc 8195) 2 st = Some (1, st)).
  { intros st Hh Hch Hu Hb Ha.
    rewrite (@umm_poison_check_initialised cfg442) by exact Hh.
    apply (@scan_all_pass cfg442 [1]); [exact Hch|].
    intros b [<- | []]. right.
    apply (@check_poison_block_pass cfg442); [exact Hu | |].
    - apply (proj1 (check_poison_loop_region _ _ _)). exact Hb.
    - apply (proj1 (check_poison_loop_region _ _ _)). exact Ha. }
  split; [vm_compute; reflexivity|].
  split; [vm_compute; reflexivity|].
  split; [vm_compute; reflexivity|].
  split; [vm_compute; discriminate|].
  split; [vm_compute; reflexivity|].
  split; [vm_compute; reflexivity|].
  split; [vm_compute; split; [discriminate | reflexivity]|].
  split; [vm_compute; reflexivity|].
  split; [apply Hscan; vm_compute; reflexivity || discriminate|].
  split; [discriminate|].
  apply Hscan; vm_compute; reflexivity || discriminate.
Qed.

(** C2 at work: ten bytes from the example allocator. *)
Lemma umm_poison_malloc_then_check_witness :
  @umm_poison_check cfg442 (ex_alloc 4) 2
    (snd (@umm_poison_malloc cfg442 (ex_alloc 4) ex_st0 10))
  = Some (1, snd (@umm_poison_malloc cfg442 (ex_alloc 4) ex_st0 10)).
Proof.
  apply (@umm_poison_malloc_then_check cfg442 (ex_alloc 4) ex_st0 10 [1] 1).
  - reflexivity.
  - lia.
  - vm_compute. discriminate.
  - intros H. vm_compute in H. discriminate H.
  - intros H. vm_compute in H. discriminate H.
  - vm_compute. reflexivity.
  - vm_compute. reflexivity.
Defined.

(** C2 as stated fails: a request of 65530 bytes makes a total of 65540,
    which no 16-bit length record holds.  The allocator returns a non-null
    block with room for the whole total on a heap that is otherwise in
    order, the length record reads 4, and the check that follows looks for
    the guard after the payload at the start of the body and fails. *)
Lemma umm_poison_malloc_then_check_long_block :
  let st1 := snd (@umm_malloc (ex_alloc 8194) ex_st0 65540) in
  let st2 := snd (@umm_poison_malloc cfg442 (ex_alloc 8194) ex_st0 65530) in
  @wrap_size cfg442 (65530 + @poison_size cfg442 65530) = 65540 /\
  fst (@umm_malloc (ex_alloc 8194) ex_st0 65540) <> NULL /\
  umm_heap st1 <> NULL /\
  @fresh_block cfg442 (mem st1) (umm_heap st1) [1] 1 65540 = true /\
  fst (@umm_malloc (ex_alloc 8194) ex_st0 65540)
  = @block_at cfg442 (umm_heap st1) 1 + @UMM_BODY_OFFSET cfg442 /\
  forall fuel, @umm_poison_check cfg442 (ex_alloc 8194) fuel st2 <> Some (1, st2).
Proof.
  cbv zeta.
  split; [vm_compute; reflexivity|].
  split; [vm_compute; discriminate|].
  split; [vm_compute; discriminate|].
  split; [vm_compute; reflexivity|].
  split; [vm_compute; reflexivity|].
  intros [|fuel]; [discriminate|].
  set (st2 := snd (@umm_poison_malloc cfg442 (ex_alloc 8194) ex_st0 65530)).
  rewrite (@umm_poison_check_initialised cfg442) by (vm_compute; discriminate).
  rewrite (@umm_poison_check_loop_step cfg442).
  assert (E0 : @next_index cfg442 (mem st2) (umm_heap st2) 0 = 1)
    by (vm_compute; reflexivity).
  rewrite E0.
  assert (E1 : (@next_index cfg442 (mem st2) (umm_heap st2) 1 =? 0) = false)
    by (vm_compute; reflexivity).
  rewrite E1.
  assert (E2 : @is_free cfg442 (mem st2) (umm_heap st2) 1 = false)
    by (vm_compute; reflexivity).
  rewrite E2.
  rewrite (@check_poison_block_fail_after cfg442 st2
             (@block_at cfg442 (umm_heap st2) 1) ex_ptr).
  - cbn [Z.eqb]. intros H. injection H as H0 _. discriminate H0.
  - vm_compute. reflexivity.
  - apply (proj1 (check_poison_loop_region _ _ _)). vm_compute. reflexivity.
  - vm_compute. split; [discriminate | reflexivity].
  - vm_compute. discriminate.
Qed.

(** C3 at work: block 1 of [ex_free_st] is free. *)
Lemma check_poison_block_on_free_block_witness :
  Z.land (header_next (mem ex_free_st) (ex_heap + 8)) UMM_FREELIST_MASK <> 0 /\
  fst (@check_poison_block cfg442 ex_free_st (ex_heap + 8)) = 1 /\
  log (snd (@check_poison_block cfg442 ex_free_st (ex_heap + 8)))
  = log ex_free_st
    ++ [DbgLogError "check_poison_block is called for free block 0x%lx\n"
                    [ANum (ex_heap + 8)]].
Proof.
  assert (Hfree : Z.land (header_next (mem ex_free_st) (ex_heap + 8))
                         UMM_FREELIST_MASK <> 0)
    by (vm_compute; discriminate).
  destruct (@check_poison_block_on_free_block cfg442 ex_free_st (ex_heap + 8) Hfree)
    as (H1 & _ & H3 & _).
  split; [exact Hfree|]. split; [exact H1 | exact H3].
Defined.

(** C3 as stated fails: on a free block the call does not return the
    failure value 0. *)
Lemma check_poison_block_free_block_returns_ok :
  Z.land (header_next (mem ex_free_st) (ex_heap + 8)) UMM_FREELIST_MASK <> 0 /\
  fst (@check_poison_block cfg442 ex_free_st (ex_heap + 8)) <> 0.
Proof.
  split; vm_compute; discriminate.
Qed.

(** C4 at work: an allocator that returns null for zero bytes. *)
Lemma umm_poison_malloc_zero_witness :
  fst (@umm_malloc null_alloc ex_st0 0) = NULL /\
  @umm_poison_free cfg442 null_alloc
    (snd (@umm_poison_malloc cfg442 null_alloc ex_st0 0))
    (fst (@umm_poison_malloc cfg442 null_alloc ex_st0 0))
  = @umm_free null_alloc (snd (@umm_malloc null_alloc ex_st0 0)) NULL.
Proof.
  split; [reflexivity|].
  apply (proj1 (proj2 (proj2 (@umm_poison_malloc_zero cfg442 null_alloc ex_st0)))).
  reflexivity.
Defined.

(** C4 as stated fails: when the allocator's zero-size result is not
    null, [umm_poison_malloc(0)] returns it as it is, unpoisoned, and
    [umm_poison_free] of that pointer does run the verification: it steps
    back over a length record and a guard that were never written, checks
    the block it lands in, and reports a violation. *)
Lemma umm_poison_free_verifies_zero_size_block :
  let r := @umm_poison_malloc cfg442 (ex_alloc 4) ex_st0 0 in
  r = @umm_malloc (ex_alloc 4) ex_st0 0 /\
  fst r <> NULL /\
  log (snd r) = [] /\
  log (@umm_poison_free cfg442 (ex_alloc 4) (snd r) (fst r))
  = violation_log (mem (snd r)) 0x1006 4 "before".
Proof.
  cbv zeta. split; [reflexivity|]. split; [vm_compute; discriminate|].
  split; vm_compute; reflexivity.
Qed.

(** C5 at work: ten bytes from the example allocator make a record of 20. *)
Lemma length_record_exact_witness :
  @load_len cfg442 (mem (snd (@umm_poison_malloc cfg442 (ex_alloc 4) ex_st0 10))) ex_ptr
  = 20.
Proof.
  pose proof (@length_record_exact cfg442 (ex_alloc 4) ex_st0 10) as H.
  cbv zeta in H.
  destruct H as (_ & H & _).
  - reflexivity.
  - lia.
  - vm_compute. discriminate.
  - intros E. vm_compute in E. discriminate E.
  - exact H.
Defined.

(** C5 as stated fails: for a successful allocation of 65530 bytes the
    16-bit length record holds 4, not 65540. *)
Lemma length_record_truncated :
  0 < 65530 /\
  fst (@umm_malloc (ex_alloc 8194) ex_st0 65540) = ex_ptr /\
  ex_ptr <> NULL /\
  fst (@umm_poison_malloc cfg442 (ex_alloc 8194) ex_st0 65530)
  = ex_ptr + @LEN_TYPE_SIZE cfg442 + @UMM_POISON_SIZE_BEFORE cfg442 /\
  @load_len cfg442 (mem (snd (@umm_poison_malloc cfg442 (ex_alloc 8194) ex_st0 65530)))
            ex_ptr = 4 /\
  4 <> @LEN_TYPE_SIZE cfg442 + @UMM_POISON_SIZE_BEFORE cfg442
       + @UMM_POISON_SIZE_AFTER cfg442 + 65530.
Proof.
  repeat split; try (vm_compute; reflexivity); vm_compute; discriminate.
Qed.

(** C6 at work: the allocator that is out of memory. *)
Lemma null_result_propagates_witness :
  @umm_poison_malloc cfg442 null_alloc ex_st0 10 = (NULL, ex_st0) /\
  @umm_poison_calloc cfg442 null_alloc ex_st0 2 5 = (NULL, ex_st0) /\
  @umm_poison_realloc cfg442 null_alloc ex_st0 NULL 10 = (NULL, ex_st0).
Proof.
  destruct (@null_result_propagates cfg442 null_alloc ex_st0 10 2 5 NULL)
    as (H1 & H2 & H3).
  cbv zeta in H2, H3.
  split; [|split].
  - apply H1. reflexivity.
  - apply H2. reflexivity.
  - apply H3. reflexivity.
Defined.

(** C7 at work: two items of five bytes; the last byte of the guard before
    the payload, the first byte of the payload and the first byte of the
    guard after it. *)
Lemma umm_poison_calloc_zero_fill_first_witness :
  mem (snd (@umm_poison_calloc cfg442 (ex_alloc 4) ex_st0 2 5)) (ex_ptr + 5)
  = POISON_BYTE /\
  mem (snd (@umm_poison_calloc cfg442 (ex_alloc 4) ex_st0 2 5)) (ex_ptr + 6) = x00 /\
  mem (snd (@umm_poison_calloc cfg442 (ex_alloc 4) ex_st0 2 5)) (ex_ptr + 16)
  = POISON_BYTE.
Proof.
  pose proof (@umm_poison_calloc_zero_fill_first cfg442 (ex_alloc 4) ex_st0 2 5) as H.
  cbv zeta in H.
  destruct H as (_ & Hb & Ha & Hz).
  - reflexivity.
  - intros E. vm_compute in E. discriminate E.
  - vm_compute. discriminate.
  - split; [|split].
    + apply Hb. vm_compute. split; [discriminate | reflexivity].
    + apply Hz. vm_compute. split; [discriminate | reflexivity].
    + apply Ha; vm_compute; [discriminate | split; [discriminate | reflexivity]].
Defined.

(** C7 as stated fails: one item of [2 ^ 32 - 9] bytes makes a total that
    wraps to 1.  The allocator returns a non-null block, and of the guard
    region after the payload, the four bytes below [ex_ptr + 1], the byte
    at [ex_ptr] holds the low byte of the length record, not the poison
    byte. *)
Lemma umm_poison_calloc_guard_overwritten :
  let num := 1 in
  let item_size := 2 ^ 32 - 9 in
  let size := @wrap_size cfg442 (item_size * num) in
  let total := @wrap_size cfg442 (size + @poison_size cfg442 size) in
  total = 1 /\
  fst (@umm_malloc (ex_alloc 4) ex_st0 total) = ex_ptr /\
  ex_ptr <> NULL /\
  ex_ptr + total - @UMM_POISON_SIZE_AFTER cfg442 <= ex_ptr < ex_ptr + total /\
  mem (snd (@umm_poison_calloc cfg442 (ex_alloc 4) ex_st0 num item_size)) ex_ptr
  <> POISON_BYTE.
Proof.
  cbv zeta.
  split; [vm_compute; reflexivity|].
  split; [vm_compute; reflexivity|].
  split; [vm_compute; discriminate|].
  split; [vm_compute; split; [discriminate | reflexivity]|].
  vm_compute. discriminate.
Qed.

(** C8 at work: [2 ^ 16] items of [2 ^ 16 + 1] bytes are served as 65536
    bytes. *)
Lemma umm_poison_calloc_wraps_witness :
  (2 ^ 16 + 1) * 2 ^ 16 mod 2 ^ 32 = 65536 /\
  65536 < (2 ^ 16 + 1) * 2 ^ 16 /\
  0 < fst (@umm_poison_calloc cfg442 (ex_alloc 4) ex_st0 (2 ^ 16) (2 ^ 16 + 1)).
Proof.
  split; [reflexivity|].
  pose proof (proj2 (proj2 (@umm_poison_calloc_wraps cfg442 (ex_alloc 4) ex_st0
                              (2 ^ 16) (2 ^ 16 + 1)))) as H.
  cbv zeta in H.
  destruct H as (_ & Hlt & Hpos & _).
  - reflexivity.
  - vm_compute. discriminate.
  - split; [exact Hlt|]. apply Hpos. vm_compute. reflexivity.
Defined.

(** C9 at work: the scan of [ex_live]. *)
Lemma umm_poison_check_scans_witness :
  exists r,
    @umm_poison_check cfg442 (ex_alloc 4) 2 ex_live = Some r /\
    @checkAll cfg442 (ex_alloc 4) ex_live r.
Proof.
  pose proof (proj2 (@umm_poison_check_scans cfg442 (ex_alloc 4) ex_live) [1]) as H.
  cbv zeta in H.
  apply H. vm_compute. reflexivity.
Defined.

(** C10 at work: a request of [SIZE_MAX] bytes is served as 9 bytes. *)
Lemma umm_poison_malloc_total_wraps_witness :
  @wrap_size cfg442 (@SIZE_MAX cfg442 + @poison_size cfg442 (@SIZE_MAX cfg442)) = 9 /\
  @umm_poison_malloc cfg442 (ex_alloc 4) ex_st0 (@SIZE_MAX cfg442)
  = (let '(ret, st1) := @umm_malloc (ex_alloc 4) ex_st0 9 in
     @get_poisoned cfg442 st1 ret 9).
Proof.
  pose proof (@umm_poison_malloc_total_wraps cfg442 (ex_alloc 4) ex_st0
                (@SIZE_MAX cfg442)) as H.
  cbv zeta in H.
  destruct H as (H1 & _ & _ & H2 & _).
  - reflexivity.
  - vm_compute. split; [reflexivity | discriminate].
  - split; [exact H1 | exact H2].
Defined.

(* ------------------------------------------------------------------ *)
(** ** More on the guard check: [dump_mem], [check_poison],
    [check_poison_block] *)

Section GuardCheck.

Context `{cfg : Config}.

(** [check_poison] by the outcome of its loop. *)
Lemma check_poison_cases (st : state) (ptr n : Z) (where_ : string) :
  (check_poison_loop (mem st) ptr 0 (Z.to_nat n) = 1 /\
   check_poison st ptr n where_ = (1, st)) \/
  (check_poison_loop (mem st) ptr 0 (Z.to_nat n) = 0 /\
   check_poison st ptr n where_ = (0, emit st (violation_log (mem st) ptr n where_))).
Proof.
  unfold check_poison.
  destruct (check_poison_loop_01 (mem st) ptr (Z.to_nat n) 0) as [E|E]; rewrite E;
    [right | left]; split; reflexivity.
Qed.

(** X1.  [check_poison] returns 1 exactly when every byte of the region
    holds the poison byte, and then it leaves the state alone; otherwise it
    returns 0 and appends one diagnostic: the message with the side and the
    address of the region, the dump of the region, the newline and the
    assertion. *)
Theorem check_poison_exact (st : state) (ptr n : Z) (where_ : string) :
  (fst (check_poison st ptr n where_) = 1 <->
   (forall a, ptr <= a < ptr + n -> mem st a = POISON_BYTE)) /\
  (fst (check_poison st ptr n where_) = 1 ->
   snd (check_poison st ptr n where_) = st) /\
  (fst (check_poison st ptr n where_) <> 1 ->
   check_poison st ptr n where_
   = (0, emit st (violation_log (mem st) ptr n where_))).
Proof.
  destruct (check_poison_cases st ptr n where_) as [[El Ec] | [El Ec]]; rewrite Ec;
    cbn [fst snd].
  - split; [|split].
    + split; [intros _; exact (proj1 (check_poison_loop_region _ _ _) El) | reflexivity].
    + reflexivity.
    + intros H. contradiction.
  - split; [|split].
    + split; [discriminate|]. intros H. apply (proj2 (check_poison_loop_region _ _ _)) in H.
      rewrite H in El. discriminate El.
    + discriminate.
    + reflexivity.
Qed.

(** X2.  [dump_mem] emits one [DBGLOG_ERROR] per byte, [len] of them, for
    the bytes at [ptr], [ptr + 1], ... in this order, each printed as a
    number from 0 to 255. *)
Theorem dump_mem_lists_bytes (m : memory) (len : nat) (ptr : Z) :
  dump_mem m ptr len
  = map (fun i => DbgLogError " 0x%.2x" [ANum (byte_to_Z (m (ptr + Z.of_nat i)))])
        (seq 0 len) /\
  length (dump_mem m ptr len) = len /\
  (forall i, (i < len)%nat -> 0 <= byte_to_Z (m (ptr + Z.of_nat i)) < 256).
Proof.
  assert (E : forall n p,
             dump_mem m p n
             = map (fun i => DbgLogError " 0x%.2x"
                               [ANum (byte_to_Z (m (p + Z.of_nat i)))])
                   (seq 0 n)).
  { induction n as [|n IH]; intros p; [reflexivity|].
    cbn [dump_mem seq map]. rewrite Z.add_0_r. f_equal.
    rewrite IH, <- seq_shift, map_map. apply map_ext. intros i.
    replace (p + 1 + Z.of_nat i) with (p + Z.of_nat (S i)) by lia. reflexivity. }
  split; [apply E|]. split.
  - rewrite E, length_map, length_seq. reflexivity.
  - intros i _. apply byte_to_Z_range.
Qed.

(** X3.  For a block whose header, length record and guard regions lie in
    the address space, [check_poison_block] returns 1 exactly when the
    block is marked free or both of its guard regions hold the poison byte
    throughout; otherwise it returns 0.  It never writes to memory.  On a
    used block the guard before the payload is checked first: when it is
    damaged the diagnostic is for "before" and the guard after the payload
    is not looked at; the diagnostic is for "after" only when the guard
    before the payload is whole. *)
Theorem check_poison_block_exact (st : state) (pblock : Z) :
  guards_addressable (mem st) pblock = true ->
  let used := Z.land (header_next (mem st) pblock) UMM_FREELIST_MASK = 0 in
  let before_ok := forall a, before_guard pblock <= a
                             < before_guard pblock + UMM_POISON_SIZE_BEFORE ->
                             mem st a = POISON_BYTE in
  let after_ok := forall a, after_guard (mem st) pblock <= a
                            < after_guard (mem st) pblock + UMM_POISON_SIZE_AFTER ->
                            mem st a = POISON_BYTE in
  (fst (check_poison_block st pblock) = 1 <-> ~ used \/ (before_ok /\ after_ok)) /\
  (fst (check_poison_block st pblock) <> 1 -> fst (check_poison_block st pblock) = 0) /\
  mem (snd (check_poison_block st pblock)) = mem st /\
  (used -> before_ok -> after_ok -> check_poison_block st pblock = (1, st)) /\
  (used -> ~ before_ok ->
   check_poison_block st pblock
   = (0, emit st (violation_log (mem st) (before_guard pblock)
                                UMM_POISON_SIZE_BEFORE "before"))) /\
  (used -> before_ok -> ~ after_ok ->
   check_poison_block st pblock
   = (0, emit st (violation_log (mem st) (after_guard (mem st) pblock)
                                UMM_POISON_SIZE_AFTER "after"))).
Proof.
  intros _ used before_ok after_ok.
  assert (Hused : used -> ~ before_ok ->
            check_poison_block st pblock
            = (0, emit st (violation_log (mem st) (before_guard pblock)
                                         UMM_POISON_SIZE_BEFORE "before"))).
  { intros Hu Hb. unfold check_poison_block. rewrite Hu. cbn [Z.eqb negb].
    fold (before_guard pblock).
    destruct (check_poison_cases st (before_guard pblock) UMM_POISON_SIZE_BEFORE
                "before") as [[El _] | [_ Ec]].
    - exfalso. apply Hb. exact (proj1 (check_poison_loop_region _ _ _) El).
    - rewrite Ec. reflexivity. }
  assert (Hafter : used -> before_ok -> ~ after_ok ->
            check_poison_block st pblock
            = (0, emit st (violation_log (mem st) (after_guard (mem st) pblock)
                                         UMM_POISON_SIZE_AFTER "after"))).
  { intros Hu Hb Ha. unfold check_poison_block. rewrite Hu. cbn [Z.eqb negb].
    fold (before_guard pblock). rewrite (check_poison_pass _ _ _ _ Hb). cbn [Z.eqb].
    fold (after_guard (mem st) pblock).
    destruct (check_poison_cases st (after_guard (mem st) pblock)
                UMM_POISON_SIZE_AFTER "after") as [[El _] | [_ Ec]].
    - exfalso. apply Ha. exact (proj1 (check_poison_loop_region _ _ _) El).
    - rewrite Ec. reflexivity. }
  assert (Hdec_b : before_ok \/ ~ before_ok).
  { destruct (check_poison_loop_01 (mem st) (before_guard pblock)
                (Z.to_nat UMM_POISON_SIZE_BEFORE) 0) as [E|E].
    - right. intros H. apply (proj2 (check_poison_loop_region _ _ _)) in H. congruence.
    - left. exact (proj1 (check_poison_loop_region _ _ _) E). }
  assert (Hdec_a : after_ok \/ ~ after_ok).
  { destruct (check_poison_loop_01 (mem st) (after_guard (mem st) pblock)
                (Z.to_nat UMM_POISON_SIZE_AFTER) 0) as [E|E].
    - right. intros H. apply (proj2 (check_poison_loop_region _ _ _)) in H. congruence.
    - left. exact (proj1 (check_poison_loop_region _ _ _) E). }
  split; [|split; [|split; [|split; [|split]]]].
  - destruct (Z.eq_dec (Z.land (header_next (mem st) pblock) UMM_FREELIST_MASK) 0)
      as [Hu | Hf].
    + destruct Hdec_b as [Hb | Hb].
      * destruct Hdec_a as [Ha | Ha].
        -- rewrite (check_poison_block_pass st pblock Hu Hb Ha). cbn [fst].
           split; [intros _; right; split; assumption | reflexivity].
        -- rewrite (Hafter Hu Hb Ha). cbn [fst].
           split; [discriminate|]. intros [Hn | [_ Ha']]; contradiction.
      * rewrite (Hused Hu Hb). cbn [fst].
        split; [discriminate|]. intros [Hn | [Hb' _]]; contradiction.
    + rewrite (check_poison_block_free st pblock Hf). cbn [fst].
      split; [intros _; left; exact Hf | reflexivity].
  - intros H. destruct (check_poison_block_01 st pblock) as [E|E]; [exact E | contradiction].
  - apply check_poison_block_mem.
  - intros Hu Hb Ha. apply check_poison_block_pass; assumption.
  - exact Hused.
  - exact Hafter.
Qed.

End GuardCheck.

(* ------------------------------------------------------------------ *)
(** ** More on poisoning and pointer translation: [put_poison],
    [get_poisoned], [get_unpoisoned] *)

Section Translation.

Context `{cfg : Config}.

(** A block that was just poisoned passes verification. *)
Lemma get_poisoned_block_passes (st : state) (pblock ptr size : Z) :
  config_ok = true ->
  ptr <> NULL ->
  LEN_TYPE_SIZE + UMM_POISON_SIZE_AFTER <= size <= LEN_MAX ->
  Z.land (header_next (mem st) pblock) UMM_FREELIST_MASK = 0 ->
  ptr = pblock + UMM_BODY_OFFSET ->
  check_poison_block (snd (get_poisoned st ptr size)) pblock
  = (1, snd (get_poisoned st ptr size)) /\
  load_len (mem (snd (get_poisoned st ptr size))) ptr = size.
Proof.
  intros Hc Hptr Hsize Hused Hbody. pose proof (config_ok_spec Hc) as Hcfg.
  destruct (get_poisoned_poisons st ptr size Hc) as
    (st' & Eg & _ & _ & Hlen & Hbefore & Hafter & Hrest); [lia | exact Hptr |].
  rewrite Eg. cbn [snd].
  rewrite (len_cast_small size Hc) in Hlen by lia.
  split; [|exact Hlen].
  apply check_poison_block_pass.
  - rewrite <- Hused. f_equal. apply header_next_ext.
    intros a Ha. apply Hrest; lia.
  - unfold before_guard. rewrite <- Hbody. intros a Ha. apply Hbefore. lia.
  - unfold after_guard. rewrite <- Hbody, Hlen. intros a Ha. apply Hafter; lia.
Qed.

(** The block a raw pointer lies in: the truncated division of
    [get_unpoisoned]. *)
Lemma get_unpoisoned_in_block (st : state) (b off ptr : Z) :
  config_ok = true ->
  0 <= off < UMM_BLOCK_SIZE ->
  0 <= b < 2 ^ 16 ->
  b * UMM_BLOCK_SIZE + off < 2 ^ SIZE_T_BITS ->
  ptr = block_at (umm_heap st) b + off + LEN_TYPE_SIZE + UMM_POISON_SIZE_BEFORE ->
  ptr <> NULL ->
  get_unpoisoned st ptr
  = (block_at (umm_heap st) b + off,
     snd (check_poison_block st (block_at (umm_heap st) b))).
Proof.
  intros Hc Hoff Hb Hfit Hptr Hnn. pose proof (config_ok_spec Hc) as Hcfg.
  unfold get_unpoisoned. destruct (Z.eqb_spec ptr NULL); [contradiction|]. cbn [negb].
  assert (Eraw : ptr - (LEN_TYPE_SIZE + UMM_POISON_SIZE_BEFORE)
                 = block_at (umm_heap st) b + off) by lia.
  rewrite Eraw.
  assert (Ec : (wrap_size (block_at (umm_heap st) b + off - umm_heap st)
                / UMM_BLOCK_SIZE) mod 2 ^ 16 = b).
  { replace (block_at (umm_heap st) b + off - umm_heap st)
      with (b * UMM_BLOCK_SIZE + off) by (unfold block_at; lia).
    rewrite wrap_size_small by nia.
    rewrite Z.div_add_l by lia. rewrite (Z.div_small off) by lia.
    rewrite Z.add_0_r. apply Z.mod_small. exact Hb. }
  rewrite Ec. change (UMM_BLOCK st b) with (block_at (umm_heap st) b).
  destruct (check_poison_block st (block_at (umm_heap st) b)) as [r st1]. reflexivity.
Qed.

(** X4.  Poison, then verify.  When the total is at least the size of the
    length record plus the after-guard size and fits the length-record
    type, the used block that [get_poisoned] has just poisoned passes
    [check_poison_block], which logs nothing; the length record reads back
    the total, and the guard after the payload is looked for where it was
    written.  This holds also for totals so small that the two guards
    overlap. *)
Theorem get_poisoned_then_check_poison_block (st : state) (pblock ptr size : Z) :
  config_ok = true ->
  ptr <> NULL ->
  LEN_TYPE_SIZE + UMM_POISON_SIZE_AFTER <= size <= LEN_MAX ->
  Z.land (header_next (mem st) pblock) UMM_FREELIST_MASK = 0 ->
  ptr = pblock + UMM_BODY_OFFSET ->
  check_poison_block (snd (get_poisoned st ptr size)) pblock
  = (1, snd (get_poisoned st ptr size)) /\
  load_len (mem (snd (get_poisoned st ptr size))) ptr = size /\
  after_guard (mem (snd (get_poisoned st ptr size))) pblock
  = ptr + size - UMM_POISON_SIZE_AFTER.
Proof.
  intros Hc Hptr Hsize Hused Hbody.
  destruct (get_poisoned_block_passes st pblock ptr size Hc Hptr Hsize Hused Hbody)
    as [Hpass Hlen].
  split; [exact Hpass|]. split; [exact Hlen|].
  unfold after_guard. rewrite <- Hbody, Hlen. reflexivity.
Qed.

(** X5.  What [get_poisoned] leaves alone.  It never touches the log or
    [umm_heap]; for a zero total or a null pointer it changes nothing at
    all; and when it poisons a block that has room for the length record
    with the before-guard and for the after-guard, every byte outside the
    block and every byte of the payload keeps its value. *)
Theorem get_poisoned_keeps_payload (st : state) (ptr size : Z) :
  log (snd (get_poisoned st ptr size)) = log st /\
  umm_heap (snd (get_poisoned st ptr size)) = umm_heap st /\
  (size = 0 \/ ptr = NULL -> get_poisoned st ptr size = (ptr, st)) /\
  (config_ok = true -> size <> 0 -> ptr <> NULL ->
   LEN_TYPE_SIZE + UMM_POISON_SIZE_BEFORE <= size -> UMM_POISON_SIZE_AFTER <= size ->
   forall a,
     a < ptr \/ ptr + size <= a \/
     ptr + LEN_TYPE_SIZE + UMM_POISON_SIZE_BEFORE <= a
     < ptr + size - UMM_POISON_SIZE_AFTER ->
     mem (snd (get_poisoned st ptr size)) a = mem st a).
Proof.
  split; [|split; [|split]].
  - unfold get_poisoned. destruct (negb (size =? 0) && negb (ptr =? NULL)); reflexivity.
  - unfold get_poisoned. destruct (negb (size =? 0) && negb (ptr =? NULL)); reflexivity.
  - intros [-> | ->]; unfold get_poisoned.
    + reflexivity.
    + rewrite Z.eqb_refl, andb_false_r. reflexivity.
  - intros Hc Hs Hp Hb Ha a Hout. pose proof (config_ok_spec Hc) as Hcfg.
    destruct (get_poisoned_poisons st ptr size Hc Hs Hp) as
      (st' & Eg & _ & _ & _ & _ & _ & Hrest).
    rewrite Eg. cbn [snd]. apply Hrest; lia.
Qed.

(** X7.  From the user pointer back to the block.  The pointer that
    [get_poisoned] returns for a raw pointer inside block [b] is taken
    back by [get_unpoisoned] to that raw pointer, and the block that is
    verified on the way is block [b], found from the raw pointer by
    truncated division, wherever in the block the raw pointer lies. *)
Theorem get_unpoisoned_get_poisoned (st : state) (b off raw size : Z) :
  config_ok = true ->
  0 <= off < UMM_BLOCK_SIZE ->
  0 <= b < 2 ^ 16 ->
  b * UMM_BLOCK_SIZE + off < 2 ^ SIZE_T_BITS ->
  raw = block_at (umm_heap st) b + off ->
  0 < raw ->
  size <> 0 ->
  get_unpoisoned (snd (get_poisoned st raw size)) (fst (get_poisoned st raw size))
  = (raw, snd (check_poison_block (snd (get_poisoned st raw size))
                                  (block_at (umm_heap st) b))).
Proof.
  intros Hc Hoff Hb Hfit Hraw Hpos Hs. pose proof (config_ok_spec Hc) as Hcfg.
  destruct (get_poisoned_poisons st raw size Hc Hs) as (st' & Eg & Hh & _);
    [unfold NULL; lia|].
  rewrite Eg. cbn [fst snd]. rewrite <- Hh.
  rewrite (get_unpoisoned_in_block st' b off
             (raw + LEN_TYPE_SIZE + UMM_POISON_SIZE_BEFORE) Hc Hoff Hb Hfit);
    [rewrite Hh, <- Hraw; reflexivity | rewrite Hh; lia | unfold NULL; lia].
Qed.

End Translation.

(* ------------------------------------------------------------------ *)
(** ** More on the entry points: [umm_poison_free], [umm_poison_realloc],
    [umm_poison_calloc], [umm_poison_malloc] *)

Section EntryPoints.

Context `{cfg : Config} `{alloc : Allocator}.

(** [umm_poison_malloc] for a size whose total does not wrap. *)
Lemma umm_poison_malloc_unwrapped (st : state) (size : Z) :
  config_ok = true -> 0 < size ->
  LEN_TYPE_SIZE + UMM_POISON_SIZE_BEFORE + UMM_POISON_SIZE_AFTER + size <= LEN_MAX ->
  let total := LEN_TYPE_SIZE + UMM_POISON_SIZE_BEFORE + UMM_POISON_SIZE_AFTER + size in
  umm_poison_malloc st size
  = get_poisoned (snd (umm_malloc st total)) (fst (umm_malloc st total)) total.
Proof.
  intros Hc Hsize Hfit total. pose proof (config_ok_spec Hc) as Hcfg.
  pose proof (len_max_le_size_max Hc) as Hmax. unfold SIZE_MAX in Hmax.
  assert (Hw : wrap_size (size + poison_size size) = total).
  { rewrite (poison_size_nonzero size Hc) by lia.
    rewrite wrap_size_small; unfold total; lia. }
  unfold umm_poison_malloc. rewrite Hw.
  destruct (umm_malloc st total) as [ret s1]. reflexivity.
Qed.

(** [umm_poison_malloc] for a size whose total wraps. *)
Lemma umm_poison_malloc_wrapped (st : state) (size : Z) :
  config_ok = true ->
  SIZE_MAX - (UMM_POISON_SIZE_BEFORE + LEN_TYPE_SIZE + UMM_POISON_SIZE_AFTER) < size
  <= SIZE_MAX ->
  let total := size + (UMM_POISON_SIZE_BEFORE + LEN_TYPE_SIZE + UMM_POISON_SIZE_AFTER)
               - 2 ^ SIZE_T_BITS in
  0 <= total /\
  umm_poison_malloc st size
  = get_poisoned (snd (umm_malloc st total)) (fst (umm_malloc st total)) total.
Proof.
  intros Hc Hsize total. pose proof (config_ok_spec Hc) as Hcfg.
  unfold SIZE_MAX in Hsize.
  assert (Hw : wrap_size (size + poison_size size) = total).
  { rewrite (poison_size_nonzero size Hc) by lia.
    unfold wrap_size, total. symmetry.
    apply (Z.mod_unique _ (2 ^ SIZE_T_BITS) 1); [left|]; lia. }
  split; [unfold total; lia|].
  unfold umm_poison_malloc. rewrite Hw.
  destruct (umm_malloc st total) as [ret s1]. reflexivity.
Qed.

(** X6.  A wrapped total makes [umm_poison_malloc] write outside the block
    it was given.  For a size above [SIZE_MAX] minus the overhead the
    allocator is asked for the small wrapped total; when that total is
    below the after-guard size the poison bytes of the after-guard start
    below the block, and when it is below the size of the length record
    plus the before-guard the poison bytes of the before-guard run past
    the end of the block. *)
Theorem umm_poison_malloc_wrapped_writes_outside (st : state) (size : Z) :
  config_ok = true ->
  SIZE_MAX - (UMM_POISON_SIZE_BEFORE + LEN_TYPE_SIZE + UMM_POISON_SIZE_AFTER) < size
  <= SIZE_MAX ->
  let total := size + (UMM_POISON_SIZE_BEFORE + LEN_TYPE_SIZE + UMM_POISON_SIZE_AFTER)
               - 2 ^ SIZE_T_BITS in
  let raw := fst (umm_malloc st total) in
  raw <> NULL -> total <> 0 ->
  (total < UMM_POISON_SIZE_AFTER ->
   mem (snd (umm_poison_malloc st size)) (raw - 1) = POISON_BYTE) /\
  (total < LEN_TYPE_SIZE + UMM_POISON_SIZE_BEFORE -> 0 < UMM_POISON_SIZE_BEFORE ->
   raw + total <= raw + LEN_TYPE_SIZE + UMM_POISON_SIZE_BEFORE - 1 /\
   mem (snd (umm_poison_malloc st size))
       (raw + LEN_TYPE_SIZE + UMM_POISON_SIZE_BEFORE - 1) = POISON_BYTE).
Proof.
  intros Hc Hsize total raw Hraw Ht. pose proof (config_ok_spec Hc) as Hcfg.
  destruct (umm_poison_malloc_wrapped st size Hc Hsize) as [Hpos Em].
  fold total in Hpos, Em. rewrite Em. fold raw.
  destruct (get_poisoned_poisons (snd (umm_malloc st total)) raw total Hc Ht Hraw)
    as (st' & Eg & _ & _ & _ & Hbefore & Hafter & _).
  rewrite Eg. cbn [snd]. split.
  - intros Hsmall. apply Hafter; lia.
  - intros Hsmall Hb. split; [lia|]. apply Hbefore. lia.
Qed.

(** X8.  Allocate, then free.  For a size whose total fits the
    length-record type, when the allocator hands out the body of a used
    block [b] of its heap, [umm_poison_free] of the pointer that
    [umm_poison_malloc] returned verifies block [b], logs nothing, and
    calls [umm_free] with the pointer the allocator had returned, on the
    state [umm_poison_malloc] left. *)
Theorem umm_poison_malloc_then_free (st : state) (size b : Z) :
  config_ok = true ->
  UMM_BODY_OFFSET < UMM_BLOCK_SIZE ->
  0 < size ->
  let total := LEN_TYPE_SIZE + UMM_POISON_SIZE_BEFORE + UMM_POISON_SIZE_AFTER + size in
  total <= LEN_MAX ->
  let raw := fst (umm_malloc st total) in
  let st1 := snd (umm_malloc st total) in
  0 < raw ->
  0 <= b < 2 ^ 16 ->
  b * UMM_BLOCK_SIZE + UMM_BODY_OFFSET < 2 ^ SIZE_T_BITS ->
  raw = block_at (umm_heap st1) b + UMM_BODY_OFFSET ->
  is_free (mem st1) (umm_heap st1) b = false ->
  fst (umm_poison_malloc st size) = raw + LEN_TYPE_SIZE + UMM_POISON_SIZE_BEFORE /\
  umm_poison_free (snd (umm_poison_malloc st size)) (fst (umm_poison_malloc st size))
  = umm_free (snd (umm_poison_malloc st size)) raw.
Proof.
  intros Hc Hbs Hsize total Hfit raw st1 Hraw Hb Hw Hbody Hused.
  pose proof (config_ok_spec Hc) as Hcfg.
  rewrite (umm_poison_malloc_unwrapped st size Hc Hsize Hfit).
  fold total. fold raw. fold st1.
  assert (Hnn : raw <> NULL) by (unfold NULL; lia).
  destruct (get_poisoned_block_passes st1 (block_at (umm_heap st1) b) raw total Hc Hnn)
    as [Hpass _];
    [unfold total; lia | unfold is_free in Hused; apply negb_false_iff in Hused;
                         apply Z.eqb_eq; exact Hused | exact Hbody |].
  destruct (get_poisoned_poisons st1 raw total Hc) as (st2 & Eg & Hh & _);
    [unfold total; lia | exact Hnn |].
  rewrite Eg in *. cbn [fst snd] in *. split; [reflexivity|].
  unfold umm_poison_free.
  rewrite (get_unpoisoned_in_block st2 b UMM_BODY_OFFSET
             (raw + LEN_TYPE_SIZE + UMM_POISON_SIZE_BEFORE) Hc);
    [| lia | exact Hb | exact Hw | rewrite Hh; lia | unfold NULL; lia].
  rewrite Hh, Hpass, <- Hbody. reflexivity.
Qed.



(** X13.  A product that is zero modulo [2 ^ SIZE_T_BITS] makes
    [umm_poison_calloc] a zero-size allocation: the items may be many and
    large, yet the allocator is asked for zero bytes and its pointer comes
    back as it is, with no byte zeroed, no guard and no length record
    written. *)
Theorem umm_poison_calloc_zero_product (st : state) (num item_size : Z) :
  (item_size * num) mod 2 ^ SIZE_T_BITS = 0 ->
  fst (umm_poison_calloc st num item_size) = fst (umm_malloc st 0) /\
  umm_heap (snd (umm_poison_calloc st num item_size)) = umm_heap (snd (umm_malloc st 0)) /\
  log (snd (umm_poison_calloc st num item_size)) = log (snd (umm_malloc st 0)) /\
  (forall a, mem (snd (umm_poison_calloc st num item_size)) a
             = mem (snd (umm_malloc st 0)) a).
Proof.
  intros H. unfold umm_poison_calloc.
  assert (E : wrap_size (item_size * num) = 0) by exact H.
  rewrite E. rewrite ?poison_size_zero, ?Z.add_0_r, ?wrap_size_zero.
  destruct (umm_malloc st 0) as [ret st1]. rewrite get_poisoned_zero. cbn [fst snd].
  destruct (negb (NULL =? ret)); cbn [set_mem mem umm_heap log];
    repeat split; try reflexivity.
  intros a. apply memset_out. lia.
Qed.

End EntryPoints.

(* ------------------------------------------------------------------ *)
(** ** More on the scan: what [umm_poison_check] returns and what it
    does not see *)

Section ScanOutcome.

Context `{cfg : Config} `{alloc : Allocator}.

(** The three ways verification of a used block can end. *)
Lemma check_poison_block_used_cases (st : state) (pblock : Z) :
  Z.land (header_next (mem st) pblock) UMM_FREELIST_MASK = 0 ->
  check_poison_block st pblock = (1, st) \/
  check_poison_block st pblock
  = (0, emit st (violation_log (mem st) (before_guard pblock)
                               UMM_POISON_SIZE_BEFORE "before")) \/
  check_poison_block st pblock
  = (0, emit st (violation_log (mem st) (after_guard (mem st) pblock)
                               UMM_POISON_SIZE_AFTER "after")).
Proof.
  intros Hu. unfold check_poison_block. rewrite Hu. cbn [Z.eqb negb].
  fold (before_guard pblock).
  destruct (check_poison_cases st (before_guard pblock) UMM_POISON_SIZE_BEFORE "before")
    as [[_ Ec] | [_ Ec]]; rewrite Ec; cbn [Z.eqb]; [|right; left; reflexivity].
  fold (after_guard (mem st) pblock).
  destruct (check_poison_cases st (after_guard (mem st) pblock)
              UMM_POISON_SIZE_AFTER "after")
    as [[_ Ec2] | [_ Ec2]]; rewrite Ec2; cbn [Z.eqb];
    [left | right; right]; reflexivity.
Qed.

(** On a chain the loop ends, with success on the state it started from
    or with the diagnostic of one used block of the chain appended to it. *)
Lemma scan_outcome (l : list Z) : forall st cur,
  chainb (mem st) (umm_heap st) cur l = true ->
  exists r,
    umm_poison_check_loop (S (length l)) st 1 cur = Some r /\
    (r = (1, st) \/
     exists b ptr n where_,
       In b l /\
       r = (0, emit st (violation_log (mem st) ptr n where_)) /\
       is_free (mem st) (umm_heap st) b = false /\
       ((where_ = "before"%string /\
         ptr = before_guard (block_at (umm_heap st) b) /\
         n = UMM_POISON_SIZE_BEFORE) \/
        (where_ = "after"%string /\
         ptr = after_guard (mem st) (block_at (umm_heap st) b) /\
         n = UMM_POISON_SIZE_AFTER))).
Proof.
  induction l as [|c l IH]; intros st cur H; cbn [chainb] in H.
  - rewrite umm_poison_check_loop_step, H. eexists. split; [reflexivity|].
    left. reflexivity.
  - repeat (apply andb_prop in H; destruct H as [H ?]).
    apply Z.eqb_eq in H. subst c.
    cbn [length]. rewrite umm_poison_check_loop_step.
    destruct (next_index (mem st) (umm_heap st) cur =? 0); [discriminate|].
    assert (Hrest : exists r,
              umm_poison_check_loop (S (length l)) st 1
                (next_index (mem st) (umm_heap st) cur) = Some r /\
              (r = (1, st) \/
               exists b ptr n where_,
                 In b (cur :: l) /\
                 r = (0, emit st (violation_log (mem st) ptr n where_)) /\
                 is_free (mem st) (umm_heap st) b = false /\
                 ((where_ = "before"%string /\
                   ptr = before_guard (block_at (umm_heap st) b) /\
                   n = UMM_POISON_SIZE_BEFORE) \/
                  (where_ = "after"%string /\
                   ptr = after_guard (mem st) (block_at (umm_heap st) b) /\
                   n = UMM_POISON_SIZE_AFTER)))).
    { destruct (IH st _ ltac:(eassumption)) as (r & Hr & Hcases).
      exists r. split; [exact Hr|].
      destruct Hcases as [E | (b & ptr & n & w & Hin & E & Hf & Hs)]; [left; exact E|].
      right. exists b, ptr, n, w. repeat split; try assumption. right. exact Hin. }
    destruct (is_free (mem st) (umm_heap st) cur) eqn:Ef; [exact Hrest|].
    destruct (check_poison_block_used_cases st (block_at (umm_heap st) cur))
      as [Ec | [Ec | Ec]];
      [apply is_free_false; exact Ef | | |]; rewrite Ec; cbn [Z.eqb].
    + exact Hrest.
    + eexists. split; [reflexivity|]. right.
      exists cur, (before_guard (block_at (umm_heap st) cur)), UMM_POISON_SIZE_BEFORE,
             "before"%string.
      split; [left; reflexivity|]. split; [reflexivity|]. split; [exact Ef|].
      left. repeat split.
    + eexists. split; [reflexivity|]. right.
      exists cur, (after_guard (mem st) (block_at (umm_heap st) cur)),
             UMM_POISON_SIZE_AFTER, "after"%string.
      split; [left; reflexivity|]. split; [reflexivity|]. split; [exact Ef|].
      right. repeat split.
Qed.

Lemma in_address_space_spec (a n : Z) :
  in_address_space a n = true -> 0 <= a /\ a + n <= 2 ^ SIZE_T_BITS.
Proof.
  unfold in_address_space. intros H. apply andb_prop in H. destruct H as [H1 H2].
  apply Z.leb_le in H1. apply Z.leb_le in H2. split; assumption.
Qed.

(** X11.  What [umm_poison_check] returns.  On a heap whose chain [l]
    reaches a zero next-index and whose used blocks have their guard
    regions in the address space, [umm_poison_check] returns within one
    turn per block, and the result is either 1 with the state exactly as
    the (lazily initialised) heap was, nothing logged, or 0 with one
    violation diagnostic appended to the log, for a guard region of a used
    block of the chain, at an address of the address space; it never
    writes to memory or moves [umm_heap].  A successful check of an
    initialised heap can be repeated with the same result. *)
Theorem umm_poison_check_outcome (st : state) (l : list Z) :
  let st0 := bootstrap st in
  chainb (mem st0) (umm_heap st0) (next_index (mem st0) (umm_heap st0) 0) l = true ->
  forallb (fun b => is_free (mem st0) (umm_heap st0) b
                    || guards_addressable (mem st0) (block_at (umm_heap st0) b)) l
  = true ->
  exists r,
    umm_poison_check (S (length l)) st = Some r /\
    (r = (1, st0) \/
     exists b ptr n where_,
       In b l /\
       r = (0, emit st0 (violation_log (mem st0) ptr n where_)) /\
       is_free (mem st0) (umm_heap st0) b = false /\
       ((where_ = "before"%string /\
         ptr = before_guard (block_at (umm_heap st0) b) /\
         n = UMM_POISON_SIZE_BEFORE) \/
        (where_ = "after"%string /\
         ptr = after_guard (mem st0) (block_at (umm_heap st0) b) /\
         n = UMM_POISON_SIZE_AFTER)) /\
       0 <= ptr /\ ptr + n <= 2 ^ SIZE_T_BITS) /\
    mem (snd r) = mem st0 /\
    umm_heap (snd r) = umm_heap st0 /\
    (fst r = 1 -> umm_heap st0 <> NULL ->
     umm_poison_check (S (length l)) (snd r) = Some r).
Proof.
  intros st0 Hchain Haddr.
  assert (E : umm_poison_check (S (length l)) st
              = umm_poison_check_loop (S (length l)) st0 1
                  (next_index (mem st0) (umm_heap st0) 0)) by reflexivity.
  destruct (scan_outcome l st0 _ Hchain) as (r & Hr & Hcases).
  exists r. rewrite E. split; [exact Hr|].
  rewrite forallb_forall in Haddr.
  destruct Hcases as [-> | (b & ptr & n & w & Hin & -> & Hf & Hs)]; cbn [fst snd].
  - split; [left; reflexivity|]. split; [reflexivity|]. split; [reflexivity|].
    intros _ Hheap. rewrite umm_poison_check_initialised by exact Hheap. exact Hr.
  - split.
    + right. exists b, ptr, n, w.
      split; [exact Hin|]. split; [reflexivity|]. split; [exact Hf|].
      split; [exact Hs|].
      specialize (Haddr b Hin). rewrite Hf in Haddr. cbn [orb] in Haddr.
      unfold guards_addressable in Haddr.
      apply andb_prop in Haddr. destruct Haddr as [Haddr H2].
      apply andb_prop in Haddr. destruct Haddr as [_ H1].
      apply in_address_space_spec in H1. apply in_address_space_spec in H2.
      destruct Hs as [(_ & -> & ->) | (_ & -> & ->)]; assumption.
    + split; [reflexivity|]. split; [reflexivity|]. discriminate.
Qed.

(** X12.  Writes the scan does not see.  On an initialised heap of live
    poisoned allocations, a byte written into the body of a free block of
    the chain, or into the payload of a used block, whatever its value,
    leaves [umm_poison_check] successful: free blocks are stepped over and
    only the guard regions of used blocks are looked at. *)
Theorem unguarded_write_not_detected (st : state) (l : list Z) (b a : Z) (v : byte) :
  config_ok = true ->
  umm_heap st <> NULL ->
  live_heap (mem st) (umm_heap st) l = true ->
  In b l ->
  (is_free (mem st) (umm_heap st) b = true /\
   block_at (umm_heap st) b + 2 <= a
   < block_at (umm_heap st) (next_index (mem st) (umm_heap st) b)) \/
  (is_free (mem st) (umm_heap st) b = false /\
   before_guard (block_at (umm_heap st) b) + UMM_POISON_SIZE_BEFORE <= a
   < after_guard (mem st) (block_at (umm_heap st) b)) ->
  let st' := set_mem st (store_byte (mem st) a v) in
  umm_poison_check (S (length l)) st' = Some (1, st').
Proof.
  intros Hc Hheap Hlive Hin Hwhere st'.
  pose proof (config_ok_spec Hc) as Hcfg.
  set (h := umm_heap st) in *. set (m1 := mem st) in *.
  set (m2 := store_byte m1 a v).
  unfold live_heap in Hlive. apply andb_prop in Hlive. destruct Hlive as [Hchain Hall].
  rewrite forallb_forall in Hall.
  set (pblock := block_at h b) in *.
  assert (Hb0 : 0 <= b).
  { pose proof (next_index_nonneg h m1 0).
    pose proof (chain_ge h m1 l _ Hchain b Hin). lia. }
  assert (Hblk : h <= pblock) by (unfold pblock, block_at; nia).
  assert (Hspan : pblock + 2 <= a /\ a + 1 <= block_at h (next_index m1 h b)).
  { destruct Hwhere as [[_ Ha] | [Hu Ha]]; [lia|].
    specialize (Hall b Hin). rewrite Hu in Hall. cbn [orb] in Hall.
    pose proof (poisoned_block_spec h m1 b Hall) as (Hlen & Hend & _ & _).
    cbv zeta in Hlen, Hend. fold pblock in Hlen, Hend.
    unfold before_guard, after_guard in Ha. lia. }
  assert (Hagree : forall x, x < a \/ a + 1 <= x -> m2 x = m1 x).
  { intros x Hx. apply store_byte_other. lia. }
  destruct (heap_transfer m1 m2 h a (a + 1) Hc Hagree b)
    with (l := l) (cur := next_index m1 h 0) as [Hchain2 Hblocks];
    [fold pblock; lia | lia | exact Hchain | exact Hin |].
  destruct (link_transfer m1 m2 h a (a + 1) Hagree 0) as [Ehead _];
    [left; unfold block_at; lia|].
  rewrite umm_poison_check_initialised by exact Hheap.
  change (mem st') with m2. change (umm_heap st') with h. rewrite Ehead.
  apply scan_all_pass; [exact Hchain2|].
  intros b' Hb'. change (mem st') with m2. change (umm_heap st') with h.
  destruct (Hblocks b' Hb') as (_ & Ef & Hp).
  destruct (is_free m2 h b') eqn:Ef2; [left; reflexivity | right].
  destruct (Z.eq_dec b' b) as [-> | Hne].
  - (* the block written to is used: the write went into its payload *)
    destruct Hwhere as [[Hu _] | [Hu Ha]]; [congruence|].
    specialize (Hall b Hin). rewrite Hu in Hall. cbn [orb] in Hall.
    pose proof (poisoned_block_spec h m1 b Hall) as (Hlen & Hend & Hbefore & Hafter).
    cbv zeta in Hlen, Hend, Hbefore, Hafter.
    fold pblock in Hlen, Hend, Hbefore, Hafter. fold pblock.
    assert (Elen : load_len m2 (pblock + UMM_BODY_OFFSET)
                   = load_len m1 (pblock + UMM_BODY_OFFSET)).
    { apply load_len_ext. intros x Hx. apply Hagree.
      unfold before_guard in Ha. lia. }
    assert (Eag : after_guard m2 pblock = after_guard m1 pblock)
      by (unfold after_guard; rewrite Elen; reflexivity).
    apply check_poison_block_pass.
    + apply is_free_false. exact Ef2.
    + intros x Hx. change (mem st' x) with (m2 x). rewrite Hagree by lia.
      apply Hbefore. exact Hx.
    + change (mem st') with m2. rewrite Eag.
      intros x Hx. rewrite Hagree by lia. apply Hafter. exact Hx.
  - apply (poisoned_block_passes st' b'); [exact Ef2|].
    apply Hp; [exact Hne|].
    specialize (Hall b' Hb'). rewrite <- Ef in Hall. exact Hall.
Qed.

End ScanOutcome.

(* ------------------------------------------------------------------ *)
(** ** Writing and checking one guard region *)

Section GuardRegion.

Context `{cfg : Config}.

(** X14.  Write a guard, then check it.  After [put_poison] of [n] bytes
    at [ptr], [check_poison] of the same region returns 1 and logs
    nothing, whatever the region held before; [put_poison] changes no byte
    outside the region, and for [n <= 0] it changes none at all. *)
Theorem put_poison_then_check_poison (st : state) (ptr n : Z) (where_ : string) :
  check_poison (set_mem st (put_poison (mem st) ptr n)) ptr n where_
  = (1, set_mem st (put_poison (mem st) ptr n)) /\
  (forall a, a < ptr \/ ptr + n <= a -> put_poison (mem st) ptr n a = mem st a) /\
  (forall a, ptr <= a < ptr + n -> put_poison (mem st) ptr n a = POISON_BYTE).
Proof.
  split; [|split].
  - apply check_poison_pass. intros a Ha. cbn [mem set_mem].
    unfold put_poison. apply memset_in. exact Ha.
  - intros a Ha. unfold put_poison. apply memset_out. exact Ha.
  - intros a Ha. unfold put_poison. apply memset_in. exact Ha.
Qed.

End GuardRegion.

(* ------------------------------------------------------------------ *)
(** ** The further properties at work on concrete heaps *)

(** X3 at work: block 1 of [ex_live], used and whole. *)
Lemma check_poison_block_exact_witness :
  @check_poison_block cfg442 ex_live (ex_heap + 8) = (1, ex_live).
Proof.
  pose proof (@check_poison_block_exact cfg442 ex_live (ex_heap + 8)) as H.
  cbv zeta in H.
  destruct H as (_ & _ & _ & H & _).
  - vm_compute. reflexivity.
  - apply H.
    + vm_compute. reflexivity.
    + apply (proj1 (check_poison_loop_region _ _ _)). vm_compute. reflexivity.
    + apply (proj1 (check_poison_loop_region _ _ _)). vm_compute. reflexivity.
Defined.

(** X4 at work: a total of seven bytes on block 1, where the two guards
    overlap. *)
Lemma get_poisoned_then_check_poison_block_witness :
  @check_poison_block cfg442
    (snd (@get_poisoned cfg442 (snd (@umm_malloc (ex_alloc 4) ex_st0 7)) ex_ptr 7))
    (ex_heap + 8)
  = (1, snd (@get_poisoned cfg442 (snd (@umm_malloc (ex_alloc 4) ex_st0 7)) ex_ptr 7)).
Proof.
  apply (@get_poisoned_then_check_poison_block cfg442
           (snd (@umm_malloc (ex_alloc 4) ex_st0 7)) (ex_heap + 8) ex_ptr 7).
  - reflexivity.
  - discriminate.
  - vm_compute. split; discriminate.
  - vm_compute. reflexivity.
  - reflexivity.
Defined.

(** X6 at work: a request of [2 ^ 32 - 9] bytes is served as one byte, and
    poison lands below the block and past its end. *)
Lemma umm_poison_malloc_wrapped_writes_outside_witness :
  mem (snd (@umm_poison_malloc cfg442 (ex_alloc 4) ex_st0 (2 ^ 32 - 9))) (ex_ptr - 1)
  = POISON_BYTE /\
  mem (snd (@umm_poison_malloc cfg442 (ex_alloc 4) ex_st0 (2 ^ 32 - 9))) (ex_ptr + 5)
  = POISON_BYTE.
Proof.
  pose proof (@umm_poison_malloc_wrapped_writes_outside cfg442 (ex_alloc 4) ex_st0
                (2 ^ 32 - 9)) as H.
  cbv zeta in H.
  destruct H as [H1 H2].
  - reflexivity.
  - vm_compute. split; [reflexivity | discriminate].
  - vm_compute. discriminate.
  - vm_compute. discriminate.
  - split.
    + apply H1. vm_compute. reflexivity.
    + apply H2; vm_compute; reflexivity.
Defined.

(** X7 at work: block 1 of the example heap. *)
Lemma get_unpoisoned_get_poisoned_witness :
  @get_unpoisoned cfg442
    (snd (@get_poisoned cfg442 (snd (@umm_malloc (ex_alloc 4) ex_st0 20)) ex_ptr 20))
    (fst (@get_poisoned cfg442 (snd (@umm_malloc (ex_alloc 4) ex_st0 20)) ex_ptr 20))
  = (ex_ptr,
     snd (@check_poison_block cfg442
            (snd (@get_poisoned cfg442 (snd (@umm_malloc (ex_alloc 4) ex_st0 20))
                                ex_ptr 20))
            (@block_at cfg442 (umm_heap (snd (@umm_malloc (ex_alloc 4) ex_st0 20))) 1))).
Proof.
  apply (@get_unpoisoned_get_poisoned cfg442
           (snd (@umm_malloc (ex_alloc 4) ex_st0 20)) 1 4 ex_ptr 20).
  - reflexivity.
  - vm_compute. split; [discriminate | reflexivity].
  - vm_compute. split; [discriminate | reflexivity].
  - vm_compute. reflexivity.
  - vm_compute. reflexivity.
  - vm_compute. reflexivity.
  - discriminate.
Defined.

(** X8 at work: ten bytes from the example allocator, freed at once. *)
Lemma umm_poison_malloc_then_free_witness :
  @umm_poison_free cfg442 (ex_alloc 4)
    (snd (@umm_poison_malloc cfg442 (ex_alloc 4) ex_st0 10))
    (fst (@umm_poison_malloc cfg442 (ex_alloc 4) ex_st0 10))
  = @umm_free (ex_alloc 4) (snd (@umm_poison_malloc cfg442 (ex_alloc 4) ex_st0 10)) ex_ptr.
Proof.
  pose proof (@umm_poison_malloc_then_free cfg442 (ex_alloc 4) ex_st0 10 1) as H.
  cbv zeta in H.
  apply H.
  - reflexivity.
  - reflexivity.
  - lia.
  - vm_compute. discriminate.
  - vm_compute. reflexivity.
  - vm_compute. split; [discriminate | reflexivity].
  - vm_compute. reflexivity.
  - vm_compute. reflexivity.
  - vm_compute. reflexivity.
Defined.



(** X11 at work: the check of [ex_live]. *)
Lemma umm_poison_check_outcome_witness :
  exists r,
    @umm_poison_check cfg442 (ex_alloc 4) 2 ex_live = Some r /\
    mem (snd r) = mem (@bootstrap (ex_alloc 4) ex_live).
Proof.
  pose proof (@umm_poison_check_outcome cfg442 (ex_alloc 4) ex_live [1]) as H.
  cbv zeta in H.
  destruct H as (r & Hr & _ & Hm & _).
  - vm_compute. reflexivity.
  - vm_compute. reflexivity.
  - exists r. split; [exact Hr | exact Hm].
Defined.

(** X12 at work: a zero written into the payload of the allocation of
    [ex_live]. *)
Lemma unguarded_write_not_detected_witness :
  @umm_poison_check cfg442 (ex_alloc 4) 2
    (set_mem ex_live (store_byte (mem ex_live) 0x1014 x00))
  = Some (1, set_mem ex_live (store_byte (mem ex_live) 0x1014 x00)).
Proof.
  apply (@unguarded_write_not_detected cfg442 (ex_alloc 4) ex_live [1] 1 0x1014 x00).
  - reflexivity.
  - intros H. vm_compute in H. discriminate H.
  - vm_compute. reflexivity.
  - left. reflexivity.
  - right. vm_compute. split; [reflexivity | split; [discriminate | reflexivity]].
Defined.

(** X13 at work: [2 ^ 16] items of [2 ^ 16] bytes on a 32-bit [size_t]. *)
Lemma umm_poison_calloc_zero_product_witness :
  fst (@umm_poison_calloc cfg442 (ex_alloc 4) ex_st0 (2 ^ 16) (2 ^ 16))
  = fst (@umm_malloc (ex_alloc 4) ex_st0 0).
Proof.
  apply (@umm_poison_calloc_zero_product cfg442 (ex_alloc 4) ex_st0 (2 ^ 16) (2 ^ 16)).
  reflexivity.
Defined.
